(** * The file-editing tool of DesktopCommanderMCP ([src/tools/edit.ts])

    A shallow embedding of [parseEditBlock], [simpleInMemoryReplace],
    [gitBasedReplace] and [performSearchReplace], together with the part of
    the JavaScript string and array library they call.

    Conventions.
    - A JavaScript string is a [string]: a sequence of code units, here
      restricted to U+0000..U+00FF (one [ascii] per code unit).
    - Indices are [Z], as in the source, where [-1] is the "not found"
      answer of [indexOf].
    - A rejected promise / thrown exception is [Thrown e]; every value
      thrown by this code and by the Node primitives it calls is an [Error]
      object, kept as its [message]. *)

From Stdlib Require Import ZArith Lia Ascii.
From Stdlib Require String.
From stdpp Require Import gmap strings list fin_maps pretty.

Local Open Scope Z_scope.

(* ===================================================================== *)
(** * Part 1. The JavaScript library functions used by the source         *)
(* ===================================================================== *)

Module JS.

(** The line feed character of ['\n'] and the double quote. *)
Definition LF : ascii := "010"%char.
Definition nl : string := String LF "".
Definition dq : string := String "034"%char "".

Definition len (s : string) : Z := Z.of_nat (String.length s).

(** [str_take n s] and [str_drop n s]: the first [n] code units of [s], and
    the rest. *)
Fixpoint str_take (n : nat) (s : string) : string :=
  match n, s with
  | S n', String c s' => String c (str_take n' s')
  | _, _ => ""
  end.

Fixpoint str_drop (n : nat) (s : string) : string :=
  match n, s with
  | S n', String _ s' => str_drop n' s'
  | _, _ => s
  end.

(** [s.startsWith(pre)] *)
Fixpoint startsWith (s pre : string) : bool :=
  match pre, s with
  | EmptyString, _ => true
  | String a pre', String b s' => if decide (a = b) then startsWith s' pre' else false
  | String _ _, EmptyString => false
  end.

(** [s.indexOf(search)]: the least index at which [search] starts in [s],
    [-1] when there is none. *)
Fixpoint indexOf (s search : string) : Z :=
  if startsWith s search then 0
  else match s with
       | EmptyString => -1
       | String _ s' =>
           let r := indexOf s' search in
           if r =? -1 then -1 else r + 1
       end.

(** Index arguments of [substring] are clamped to [0 .. length]. *)
Definition clamp (n : nat) (i : Z) : nat :=
  Z.to_nat (Z.min (Z.max i 0) (Z.of_nat n)).

(** [s.substring(a, b)]: both ends clamped, swapped when [a > b]. *)
Definition substring (s : string) (a b : Z) : string :=
  let a' := clamp (String.length s) a in
  let b' := clamp (String.length s) b in
  let lo := Nat.min a' b' in
  let hi := Nat.max a' b' in
  str_take (hi - lo) (str_drop lo s).

(** [s.substring(a)]: the end defaults to the length. *)
Definition substringFrom (s : string) (a : Z) : string :=
  substring s a (len s).

(** White space removed by [trim], within U+0000..U+00FF: TAB, LF, VT, FF,
    CR, SPACE and NO-BREAK SPACE. *)
Definition isWhiteSpace (c : ascii) : bool :=
  match c with
  | "009" | "010" | "011" | "012" | "013" | " " | "160" => true
  | _ => false
  end%char.

Fixpoint trimStart (s : string) : string :=
  match s with
  | String c s' => if isWhiteSpace c then trimStart s' else s
  | EmptyString => ""
  end.

Fixpoint trimEnd (s : string) : string :=
  match s with
  | String c s' =>
      match trimEnd s' with
      | EmptyString => if isWhiteSpace c then "" else String c ""
      | t => String c t
      end
  | EmptyString => ""
  end.

(** [s.trim()] *)
Definition trim (s : string) : string := trimEnd (trimStart s).

(** [s.split(sep)] for a one-character separator: never the empty array. *)
Fixpoint split (sep : ascii) (s : string) : list string :=
  match s with
  | EmptyString => [""]
  | String c s' =>
      if decide (c = sep) then "" :: split sep s'
      else match split sep s' with
           | l :: ls => String c l :: ls
           | [] => [String c ""]
           end
  end.

(** [arr.join(sep)] *)
Fixpoint join (sep : string) (l : list string) : string :=
  match l with
  | [] => ""
  | [x] => x
  | x :: xs => x +:+ sep +:+ join sep xs
  end.

(** [arr.indexOf(x)]: strict equality, first match, [-1] when absent. *)
Fixpoint arr_indexOf (l : list string) (x : string) : Z :=
  match l with
  | [] => -1
  | y :: l' =>
      if decide (y = x) then 0
      else let r := arr_indexOf l' x in
           if r =? -1 then -1 else r + 1
  end.

(** A relative index of [slice]: negative counts from the end. *)
Definition relIndex (n : nat) (i : Z) : nat :=
  if i <? 0 then Z.to_nat (Z.max (Z.of_nat n + i) 0)
  else Z.to_nat (Z.min i (Z.of_nat n)).

(** [arr.slice(a, b)] *)
Definition slice {A} (l : list A) (a b : Z) : list A :=
  let k := relIndex (length l) a in
  let final := relIndex (length l) b in
  take (final - k) (drop k l).

End JS.

(* ===================================================================== *)
(** * Part 2. Errors and outcomes                                         *)
(* ===================================================================== *)

(** An [Error] object: what the code inspects is its [message]. *)
Record JsError := mkError { message : string }.

Global Instance JsError_eq_dec : EqDecision JsError.
Proof. solve_decision. Defined.

(** [String(e)] and [`${e}`] of an [Error]: its name, a colon, its message. *)
Definition errorToString (e : JsError) : string := "Error: " +:+ message e.

Inductive Outcome (A : Type) : Type :=
| Returned (a : A)
| Thrown (e : JsError).
Arguments Returned {A} a.
Arguments Thrown {A} e.

(** [interface SearchReplace] *)
Record SearchReplace := mkSearchReplace { search : string; replace : string }.

(** The result type of [parseEditBlock]. *)
Record EditBlock := mkEditBlock { filePath : string; searchReplace : SearchReplace }.

(* ===================================================================== *)
(** * Part 3. [parseEditBlock]                                            *)
(* ===================================================================== *)

Definition SEARCH_MARKER : string := "<<<<<<< SEARCH".
Definition DIVIDER_MARKER : string := "=======".
Definition REPLACE_MARKER : string := ">>>>>>> REPLACE".

Definition formatError : JsError :=
  mkError ("Invalid edit block format. REQUIRED: Exact " +:+ JS.dq +:+ SEARCH_MARKER +:+ JS.dq
           +:+ ", " +:+ JS.dq +:+ DIVIDER_MARKER +:+ JS.dq
           +:+ ", and " +:+ JS.dq +:+ REPLACE_MARKER +:+ JS.dq +:+ " markers").

(** Reading [lines[0]] of an empty array gives [undefined], whose [trim] is a
    [TypeError]; [split] never returns the empty array, see [split_nonempty]. *)
Definition undefinedTrimError : JsError :=
  mkError "Cannot read properties of undefined (reading 'trim')".

Definition parseEditBlock (blockContent : string) : Outcome EditBlock :=
  let lines := JS.split JS.LF blockContent in
  match lines with
  | [] => Thrown undefinedTrimError
  | line0 :: _ =>
      let filePath := JS.trim line0 in
      let searchStart := JS.arr_indexOf lines SEARCH_MARKER in
      let divider := JS.arr_indexOf lines DIVIDER_MARKER in
      let replaceEnd := JS.arr_indexOf lines REPLACE_MARKER in
      if (searchStart =? -1) || (divider =? -1) || (replaceEnd =? -1)
      then Thrown formatError
      else
        let search := JS.join JS.nl (JS.slice lines (searchStart + 1) divider) in
        let replace := JS.join JS.nl (JS.slice lines (divider + 1) replaceEnd) in
        Returned (mkEditBlock filePath (mkSearchReplace search replace))
  end.

(* ===================================================================== *)
(** * Part 4. The system interface and the effect monad                   *)
(* ===================================================================== *)

(** What the promisified [exec] resolves to. *)
Record ExecOutput := mkExecOutput { stdout : string; stderr : string }.

(** The collaborators of [edit.ts]: Node's [fs/promises], [child_process],
    [os], [path] and [Date], and the [readFile]/[writeFile] pair imported
    from [./filesystem.js] (whole-file text input and output).  Each
    primitive takes the state of the machine and gives back an outcome and
    the new state; nothing more is assumed of them here. *)
Class Sys := {
  world : Type;
  fs_stat : string -> world -> Outcome Z * world;
  fs_mkdir : string -> world -> Outcome unit * world;
  fs_copyFile : string -> string -> world -> Outcome unit * world;
  fs_readFile : string -> world -> Outcome string * world;
  fs_writeFile : string -> string -> world -> Outcome unit * world;
  fs_rm : string -> world -> Outcome unit * world;
  readFile : string -> world -> Outcome string * world;
  writeFile : string -> string -> world -> Outcome unit * world;
  exec : string -> world -> Outcome ExecOutput * world;
  date_now : world -> Z * world;
  os_tmpdir : string;
  path_join : string -> string -> string;
  path_basename : string -> string;
  path_dirname : string -> string
}.

(** The calls the program makes, in the order it makes them. *)
Inductive Event : Type :=
| EvStat (path : string)
| EvMkdir (dir : string)
| EvCopyFile (src dst : string)
| EvFsReadFile (path : string)
| EvFsWriteFile (path data : string)
| EvRm (dir : string)
| EvReadFile (path : string)
| EvWriteFile (path data : string)
| EvExec (command : string)
| EvConsoleWarn (msg : string)
| EvConsoleError (msg : string).

Global Instance Event_eq_dec : EqDecision Event.
Proof. solve_decision. Defined.

Section Effects.
Context {sys : Sys}.

Record State := mkState { env : world; trace : list Event }.

Definition M (A : Type) : Type := State -> Outcome A * State.

Definition ret {A} (a : A) : M A := fun st => (Returned a, st).

Definition throw {A} (e : JsError) : M A := fun st => (Thrown e, st).

Definition bind {A B} (m : M A) (k : A -> M B) : M B :=
  fun st =>
    match m st with
    | (Returned a, st') => k a st'
    | (Thrown e, st') => (Thrown e, st')
    end.

(** [try { m } catch (e) { h e }] *)
Definition try_catch {A} (m : M A) (h : JsError -> M A) : M A :=
  fun st =>
    match m st with
    | (Returned a, st') => (Returned a, st')
    | (Thrown e, st') => h e st'
    end.

(** [try { m } finally { f }]: [f] runs on both exits; when [f] itself
    throws, its exception replaces the outcome of [m]. *)
Definition try_finally {A} (m : M A) (f : M unit) : M A :=
  fun st =>
    match m st with
    | (r, st') =>
        match f st' with
        | (Returned _, st'') => (r, st'')
        | (Thrown e, st'') => (Thrown e, st'')
        end
    end.

(** A primitive call: the event is recorded, the machine does the rest. *)
Definition prim {A} (ev : Event) (op : world -> Outcome A * world) : M A :=
  fun st =>
    let r := op (env st) in
    (r.1, mkState r.2 (trace st ++ [ev])).

(** [console.warn] and [console.error] only leave a line on the console. *)
Definition emit (ev : Event) : M unit :=
  fun st => (Returned tt, mkState (env st) (trace st ++ [ev])).

(** [Date.now()] *)
Definition now : M Z :=
  fun st => let r := date_now (env st) in (Returned r.1, mkState r.2 (trace st)).

End Effects.

Notation "x <- m ;; k" := (bind m (fun x => k))
  (at level 100, m at next level, right associativity).
Notation "m ;;; k" := (bind m (fun _ => k))
  (at level 100, right associativity).

(* ===================================================================== *)
(** * Part 5. The replace engines and the strategy selector               *)
(* ===================================================================== *)

Definition notFoundError (filePath : string) : JsError :=
  mkError ("Search content not found in " +:+ filePath).

(** The new content both engines compute (lines 62-65 and 107-110). *)
Definition spliced (content : string) (searchIndex : Z) (block : SearchReplace) : string :=
  JS.substring content 0 searchIndex
  +:+ replace block
  +:+ JS.substringFrom content (searchIndex + JS.len (search block)).

(** The five command lines of [gitBasedReplace], built by interpolation. *)
Definition initCmd (tempDir : string) : string :=
  "cd " +:+ tempDir +:+ " && git init && git config user.email " +:+ JS.dq
  +:+ "temp@example.com" +:+ JS.dq +:+ " && git config user.name " +:+ JS.dq
  +:+ "Temp User" +:+ JS.dq.

Definition commitCmd (tempDir base : string) : string :=
  "cd " +:+ tempDir +:+ " && git add " +:+ base +:+ " && git commit -m " +:+ JS.dq
  +:+ "Original file" +:+ JS.dq.

Definition diffCmd (tempDir : string) : string :=
  "cd " +:+ tempDir +:+ " && git diff".

Definition applyCmd (dir patchFile : string) : string :=
  "cd " +:+ dir +:+ " && git apply " +:+ patchFile.

Definition apply3wayCmd (dir patchFile : string) : string :=
  "cd " +:+ dir +:+ " && git apply --3way " +:+ patchFile.

(** The warning of line 37. *)
Definition warnFallback (gitError : JsError) : Event :=
  EvConsoleWarn ("Git-based replace failed, falling back to simple replace: "
                 +:+ errorToString gitError).

Section Engines.
Context {sys : Sys}.

(** [simpleInMemoryReplace], lines 52-71. *)
Definition simpleInMemoryReplace (filePath : string) (block : SearchReplace) : M unit :=
  content <- prim (EvReadFile filePath) (readFile filePath) ;;
  let searchIndex := JS.indexOf content (search block) in
  if searchIndex =? -1 then throw (notFoundError filePath)
  else
    let newContent := spliced content searchIndex block in
    if decide (newContent <> content)
    then prim (EvWriteFile filePath newContent) (writeFile filePath newContent)
    else ret tt.

(** [tempDir] and [tempFilePath], lines 82-83, and [patchFile], line 119. *)
Definition tempDirAt (t : Z) : string :=
  path_join os_tmpdir ("git-edit-" +:+ pretty t).

Definition tempFilePathIn (tempDir filePath : string) : string :=
  path_join tempDir (path_basename filePath).

Definition patchFileIn (tempDir : string) : string :=
  path_join tempDir "changes.patch".

(** The patch application of lines 122-132. *)
Definition applyPatch (filePath patchFile : string) : M unit :=
  try_catch
    (prim (EvExec (applyCmd (path_dirname filePath) patchFile))
          (exec (applyCmd (path_dirname filePath) patchFile)) ;;; ret tt)
    (fun applyError =>
       try_catch
         (prim (EvExec (apply3wayCmd (path_dirname filePath) patchFile))
               (exec (apply3wayCmd (path_dirname filePath) patchFile)) ;;; ret tt)
         (fun retryError =>
            throw (mkError ("Failed to apply changes: " +:+ errorToString retryError)))).

(** The second half of the [try] block of [gitBasedReplace], lines 107-134:
    the edit of the workspace copy, the diff and the patch. *)
Definition gitBasedReplace_patch (filePath : string) (block : SearchReplace)
    (tempDir tempFilePath content : string) (searchIndex : Z) : M unit :=
  let newContent := spliced content searchIndex block in
  prim (EvFsWriteFile tempFilePath newContent) (fs_writeFile tempFilePath newContent) ;;;
  out <- prim (EvExec (diffCmd tempDir)) (exec (diffCmd tempDir)) ;;
  let patchContent := stdout out in
  let patchFile := patchFileIn tempDir in
  prim (EvFsWriteFile patchFile patchContent) (fs_writeFile patchFile patchContent) ;;;
  applyPatch filePath patchFile ;;;
  ret tt.

(** The [try] block of [gitBasedReplace], lines 86-134. *)
Definition gitBasedReplace_try (filePath : string) (block : SearchReplace)
    (tempDir tempFilePath : string) : M unit :=
  prim (EvMkdir tempDir) (fs_mkdir tempDir) ;;;
  prim (EvCopyFile filePath tempFilePath) (fs_copyFile filePath tempFilePath) ;;;
  prim (EvExec (initCmd tempDir)) (exec (initCmd tempDir)) ;;;
  prim (EvExec (commitCmd tempDir (path_basename filePath)))
       (exec (commitCmd tempDir (path_basename filePath))) ;;;
  content <- prim (EvFsReadFile tempFilePath) (fs_readFile tempFilePath) ;;
  let searchIndex := JS.indexOf content (search block) in
  if searchIndex =? -1 then throw (notFoundError filePath)
  else gitBasedReplace_patch filePath block tempDir tempFilePath content searchIndex.

(** The [finally] block, lines 136-141. *)
Definition gitBasedReplace_cleanup (tempDir : string) : M unit :=
  try_catch
    (prim (EvRm tempDir) (fs_rm tempDir))
    (fun error =>
       emit (EvConsoleError ("Failed to clean up temp directory: " +:+ errorToString error))).

(** [gitBasedReplace], lines 80-143. *)
Definition gitBasedReplace (filePath : string) (block : SearchReplace) : M unit :=
  t <- now ;;
  let tempDir := tempDirAt t in
  let tempFilePath := tempFilePathIn tempDir filePath in
  try_finally
    (gitBasedReplace_try filePath block tempDir tempFilePath)
    (gitBasedReplace_cleanup tempDir).

(** The body of the outer [try] of [performSearchReplace], lines 25-40. *)
Definition performSearchReplace_try (filePath : string) (block : SearchReplace) : M unit :=
  size <- prim (EvStat filePath) (fs_stat filePath) ;;
  if size <? 1000000
  then simpleInMemoryReplace filePath block
  else
    try_catch
      (gitBasedReplace filePath block)
      (fun gitError =>
         emit (warnFallback gitError) ;;;
         simpleInMemoryReplace filePath block).

(** The error thrown by the outer [catch], lines 41-43. *)
Definition wrapError (error : JsError) : JsError :=
  mkError ("Failed to perform search/replace: " +:+ message error).

(** [performSearchReplace], lines 23-44. *)
Definition performSearchReplace (filePath : string) (block : SearchReplace) : M unit :=
  try_catch
    (performSearchReplace_try filePath block)
    (fun error => throw (wrapError error)).

(** The command lines the diff/patch engine can hand to [exec]. *)
Definition engineCommands (filePath tempDir : string) : list string :=
  [ initCmd tempDir;
    commitCmd tempDir (path_basename filePath);
    diffCmd tempDir;
    applyCmd (path_dirname filePath) (patchFileIn tempDir);
    apply3wayCmd (path_dirname filePath) (patchFileIn tempDir) ].

End Engines.

(* ===================================================================== *)
(** * Part 6. Vocabulary of the specification                             *)
(* ===================================================================== *)

(** [s] occurs in [c]. *)
Definition IsSubstring (s c : string) : Prop :=
  exists pre post, c = pre +:+ s +:+ post.

(** [c] is [pre], then [s], then [post], and no occurrence of [s] in [c]
    starts earlier. *)
Definition FirstOccurrence (c s pre post : string) : Prop :=
  c = pre +:+ s +:+ post /\
  forall pre' post', c = pre' +:+ s +:+ post' ->
    (String.length pre <= String.length pre')%nat.

(** The number of positions of [c] at which [s] starts. *)
Fixpoint occurrences (c s : string) : nat :=
  ((if JS.startsWith c s then 1 else 0)
   + match c with
     | EmptyString => 0
     | String _ c' => occurrences c' s
     end)%nat.

(** [x] is the line of index [i] and no earlier line is [x]. *)
Definition FirstIndex (l : list string) (x : string) (i : nat) : Prop :=
  l !! i = Some x /\ forall j, (j < i)%nat -> l !! j <> Some x.

(** The lines of index [k] with [i < k < j]. *)
Definition linesBetween (l : list string) (i j : nat) : list string :=
  omap (fun k => l !! k) (seq (i + 1) (j - i - 1)).

(** The input up to its first line feed. *)
Fixpoint firstLine (s : string) : string :=
  match s with
  | EmptyString => ""
  | String c s' => if decide (c = JS.LF) then "" else String c (firstLine s')
  end.

(** A text without line feed. *)
Fixpoint lineFree (s : string) : bool :=
  match s with
  | EmptyString => true
  | String c s' => if decide (c = JS.LF) then false else lineFree s'
  end.

(** The block text of the wire format: the path, the opening marker, the
    lines of the search text, the divider, the lines of the replace text
    and the closing marker, one per line. *)
Definition renderBlock (path : string) (searchLines replaceLines : list string) : string :=
  JS.join JS.nl
    (path :: SEARCH_MARKER
       :: searchLines ++ DIVIDER_MARKER :: replaceLines ++ [REPLACE_MARKER]).

Definition isMarker (line : string) : bool :=
  bool_decide (line = SEARCH_MARKER) || bool_decide (line = DIVIDER_MARKER)
  || bool_decide (line = REPLACE_MARKER).

(** The size in bytes of a text stored as UTF-8: one byte for a code unit
    below U+0080, two for the others of U+0080..U+00FF. *)
Fixpoint byteLength (s : string) : Z :=
  match s with
  | EmptyString => 0
  | String c s' => (if (N_of_ascii c <? 128)%N then 1 else 2) + byteLength s'
  end.

(* ===================================================================== *)
(** * Part 7. Reading traces                                              *)
(* ===================================================================== *)

(** The calls only the in-memory engine makes. *)
Definition isInMemoryEvent (ev : Event) : bool :=
  match ev with
  | EvReadFile _ | EvWriteFile _ _ => true
  | _ => false
  end.

(** The calls only the diff/patch engine makes. *)
Definition isDiffPatchEvent (ev : Event) : bool :=
  match ev with
  | EvMkdir _ | EvCopyFile _ _ | EvFsReadFile _ | EvFsWriteFile _ _
  | EvRm _ | EvExec _ | EvConsoleError _ => true
  | _ => false
  end.



Section TraceVocabulary.
Context {sys : Sys}.

(** [m] only adds events that satisfy [P] to the trace, whatever the
    machine answers. *)
Definition Emits {A} (P : Event -> bool) (m : M A) : Prop :=
  forall st r st', m st = (r, st') ->
    exists evs, trace st' = trace st ++ evs /\ forallb P evs = true.

(** The events added between two states of one run. *)
Definition newEvents (st st' : State) : list Event :=
  drop (length (trace st)) (trace st').

End TraceVocabulary.

(* ===================================================================== *)
(** * Part 8. How a shell splits the command lines                        *)
(* ===================================================================== *)

(** The fragment of [sh] word splitting that the five command lines
    exercise: blanks separate words, double quotes group and are removed.
    [cur] is the word being read and [started] tells whether there is one.
    Nothing else is special to this scanner, so it is the splitting of
    [sh] only on command lines made of blanks, double quotes, the
    operator [&&] between blanks, and words without a character that
    [sh] treats specially; the properties of the program are stated for
    such words (the portable paths of Part 12). *)
Fixpoint shellWords_go (s : string) (inQuote : bool) (cur : string) (started : bool)
  : list string :=
  match s with
  | EmptyString => if started then [cur] else []
  | String c s' =>
      if decide (c = "034"%char) then shellWords_go s' (negb inQuote) cur true
      else if bool_decide (c = " "%char) && negb inQuote
      then (if started then cur :: shellWords_go s' false "" false
            else shellWords_go s' false "" false)
      else shellWords_go s' inQuote (cur +:+ String c "") true
  end.

Definition shellWords (commandLine : string) : list string :=
  shellWords_go commandLine false "" false.

(** The simple commands of an and-list [c1 && c2 && ...]. *)
Fixpoint splitOn (sep : string) (ws : list string) : list (list string) :=
  match ws with
  | [] => [[]]
  | w :: ws' =>
      if decide (w = sep) then [] :: splitOn sep ws'
      else match splitOn sep ws' with
           | g :: gs => (w :: g) :: gs
           | [] => [[w]]
           end
  end.


(** A string without blank and without double quote: what the scanner
    above reads as one word.  This is a property of the scanner, used in
    the lemmas on [shellWords_go]; it says nothing of [sh] on words that
    hold other special characters. *)
Fixpoint plainWord (s : string) : bool :=
  match s with
  | EmptyString => true
  | String c s' =>
      if decide (c = "034"%char) then false
      else if decide (c = " "%char) then false
      else plainWord s'
  end.

(* ===================================================================== *)
(** * Part 9. A reference machine                                         *)
(* ===================================================================== *)

(** An idealised machine on which the program can be run: a store of text
    files, POSIX paths, and a single-file version of the [git] subcommands
    that the diff/patch engine drives.  It serves to run the program on
    concrete inputs; the theorems about the program are stated for every
    machine, or for every machine whose store is reliable in the sense of
    Part 10.  A repository is found
    at the current directory only: work trees that enclose the current
    directory are not modelled. *)
Module Ref.

(** ** POSIX [path] *)

Definition slash : ascii := "/"%char.

Fixpoint dropTrailingEmpty (l : list string) : list string :=
  match l with
  | [] => []
  | x :: l' =>
      match dropTrailingEmpty l' with
      | [] => if decide (x = "") then [] else [x]
      | r => x :: r
      end
  end.

Definition isAbsolute (p : string) : bool := JS.startsWith p "/".

(** [path.basename(p)] *)
Definition basename (p : string) : string :=
  List.last (dropTrailingEmpty (JS.split slash p)) "".

(** [path.dirname(p)] *)
Definition dirname (p : string) : string :=
  let segs := dropTrailingEmpty (JS.split slash p) in
  let r := JS.join "/" (dropTrailingEmpty (removelast segs)) in
  if decide (r = "") then (if isAbsolute p then "/" else ".") else r.

(** One step of [path.normalize]: [stack] holds the segments kept so far,
    last first. *)
Definition normStep (absolute : bool) (stack : list string) (seg : string) : list string :=
  if decide (seg = "") then stack
  else if decide (seg = ".") then stack
  else if decide (seg = "..")
  then match stack with
       | [] => if absolute then [] else [".."]
       | top :: rest => if decide (top = "..") then seg :: stack else rest
       end
  else seg :: stack.

Definition endsWithSlash (p : string) : bool :=
  match List.last (JS.split slash p) "x" with
  | EmptyString => negb (bool_decide (p = ""))
  | _ => false
  end.

(** [path.normalize(p)] *)
Definition normalize (p : string) : string :=
  let absolute := isAbsolute p in
  let segs := rev (fold_left (normStep absolute) (JS.split slash p) []) in
  let body := JS.join "/" segs in
  let body' :=
    if endsWithSlash p && negb (bool_decide (body = "")) then body +:+ "/" else body in
  if absolute then "/" +:+ body'
  else if decide (body' = "") then (if endsWithSlash p then "./" else ".")
  else body'.

(** [path.join(a, b)] *)
Definition join (a b : string) : string :=
  if decide (a = "") then normalize b
  else if decide (b = "") then normalize a
  else normalize (a +:+ "/" +:+ b).

(** ** The machine *)

(** A repository with a single tracked file: what was last added, and what
    was last committed, as name and content. *)
Record Repo := mkRepo {
  index : option (string * string);
  head : option (string * string)
}.

Record Machine := mkMachine {
  files : gmap string string;
  dirs : gset string;
  repos : gmap string Repo;
  clock : Z
}.

Definition enoent (syscall path : string) : JsError :=
  mkError ("ENOENT: no such file or directory, " +:+ syscall +:+ " '" +:+ path +:+ "'").

Definition m_stat (p : string) (w : Machine) : Outcome Z * Machine :=
  match files w !! p with
  | Some c => (Returned (byteLength c), w)
  | None => (Thrown (enoent "stat" p), w)
  end.

Definition m_mkdir (d : string) (w : Machine) : Outcome unit * Machine :=
  (Returned tt, mkMachine (files w) ({[d]} ∪ dirs w) (repos w) (clock w)).

Definition m_copyFile (src dst : string) (w : Machine) : Outcome unit * Machine :=
  match files w !! src with
  | Some c => (Returned tt, mkMachine (<[dst := c]> (files w)) (dirs w) (repos w) (clock w))
  | None => (Thrown (enoent "copyfile" src), w)
  end.

Definition m_readFile (p : string) (w : Machine) : Outcome string * Machine :=
  match files w !! p with
  | Some c => (Returned c, w)
  | None => (Thrown (enoent "open" p), w)
  end.

Definition m_writeFile (p data : string) (w : Machine) : Outcome unit * Machine :=
  (Returned tt, mkMachine (<[p := data]> (files w)) (dirs w) (repos w) (clock w)).

(** [q] is [d] or lies below it. *)
Definition under (d q : string) : bool :=
  bool_decide (q = d) || JS.startsWith q (d +:+ "/").

(** [rm(d, { recursive: true, force: true })] *)
Definition m_rm (d : string) (w : Machine) : Outcome unit * Machine :=
  (Returned tt,
   mkMachine (filter (fun kv => under d kv.1 = false) (files w))
             (filter (fun q => under d q = false) (dirs w))
             (filter (fun kv => under d kv.1 = false) (repos w))
             (clock w)).

Definition m_now (w : Machine) : Z * Machine :=
  (clock w, mkMachine (files w) (dirs w) (repos w) (clock w + 1)).

(** ** Patches *)

(** A whole-file patch in the manner of a unified diff: two header lines,
    the old lines behind [-], the new lines behind [+]. *)
Definition mkPatch (name old new : string) : string :=
  JS.join JS.nl
    (("--- a/" +:+ name) :: ("+++ b/" +:+ name)
       :: (map (String "-"%char) (JS.split JS.LF old)
           ++ map (String "+"%char) (JS.split JS.LF new))).

Definition tail (s : string) : string :=
  match s with
  | EmptyString => ""
  | String _ s' => s'
  end.

Definition isMinus (s : string) : bool := JS.startsWith s "-".
Definition isPlus (s : string) : bool := JS.startsWith s "+".

Fixpoint takeWhile {A} (f : A -> bool) (l : list A) : list A :=
  match l with
  | x :: l' => if f x then x :: takeWhile f l' else []
  | [] => []
  end.

Fixpoint dropWhile {A} (f : A -> bool) (l : list A) : list A :=
  match l with
  | x :: l' => if f x then dropWhile f l' else l
  | [] => []
  end.

(** The name, the old text and the new text of a patch. *)
Definition parsePatch (t : string) : option (string * string * string) :=
  match JS.split JS.LF t with
  | h1 :: h2 :: body =>
      if JS.startsWith h1 "--- a/" then
        let name := JS.str_drop 6 h1 in
        if decide (h2 = "+++ b/" +:+ name) then
          let minus := takeWhile isMinus body in
          let plus := dropWhile isMinus body in
          if forallb isPlus plus && negb (bool_decide (plus = [])) then
            Some (name, JS.join JS.nl (map tail minus), JS.join JS.nl (map tail plus))
          else None
        else None
      else None
  | _ => None
  end.

(** ** The shell *)

Inductive ShellCmd : Type :=
| Cd (d : string)
| GitInit
| GitConfig (key value : string)
| GitAdd (name : string)
| GitCommit (msg : string)
| GitDiff
| GitApply (threeWay : bool) (patchFile : string).

Definition parseArgv (argv : list string) : option ShellCmd :=
  match argv with
  | c :: d :: _ =>
      if decide (c = "cd") then Some (Cd d)
      else if decide (c = "git") then
        match argv with
        | [_; sub] =>
            if decide (sub = "init") then Some GitInit
            else if decide (sub = "diff") then Some GitDiff
            else None
        | [_; sub; a] =>
            if decide (sub = "add") then Some (GitAdd a)
            else if decide (sub = "apply") then Some (GitApply false a)
            else None
        | [_; sub; a; b] =>
            if decide (sub = "config") then Some (GitConfig a b)
            else if bool_decide (sub = "commit") && bool_decide (a = "-m") then Some (GitCommit b)
            else if bool_decide (sub = "apply") && bool_decide (a = "--3way")
            then Some (GitApply true b)
            else None
        | _ => None
        end
      else None
  | _ => None
  end.

Definition resolve (cwd p : string) : string :=
  if isAbsolute p then p
  else if decide (cwd = "/") then "/" +:+ p
  else cwd +:+ "/" +:+ p.

Definition setFiles (w : Machine) (f : gmap string string) : Machine :=
  mkMachine f (dirs w) (repos w) (clock w).

Definition setRepo (w : Machine) (d : string) (r : Repo) : Machine :=
  mkMachine (files w) (dirs w) (<[d := r]> (repos w)) (clock w).

(** One simple command: its standard output or its complaint, the
    directory it leaves the shell in, and the machine.  [cd] goes to its
    first operand and fails when that is not a directory; a shell that
    rejects [cd] with two operands fails at the same place. *)
Definition runCmd (c : ShellCmd) (cwd : string) (w : Machine)
  : Outcome string * string * Machine :=
  match c with
  | Cd d =>
      let d' := resolve cwd d in
      if decide (d' ∈ dirs w) then (Returned "", d', w)
      else (Thrown (mkError ("cd: can't cd to " +:+ d)), cwd, w)
  | GitInit =>
      match repos w !! cwd with
      | Some _ => (Returned "", cwd, w)
      | None => (Returned "", cwd, setRepo w cwd (mkRepo None None))
      end
  | GitConfig _ _ =>
      match repos w !! cwd with
      | Some _ => (Returned "", cwd, w)
      | None => (Thrown (mkError "fatal: not in a git directory"), cwd, w)
      end
  | GitAdd name =>
      match repos w !! cwd, files w !! resolve cwd name with
      | Some r, Some c => (Returned "", cwd, setRepo w cwd (mkRepo (Some (name, c)) (head r)))
      | Some _, None =>
          (Thrown (mkError ("fatal: pathspec '" +:+ name +:+ "' did not match any files")),
           cwd, w)
      | None, _ => (Thrown (mkError "fatal: not a git repository"), cwd, w)
      end
  | GitCommit _ =>
      match repos w !! cwd with
      | Some r =>
          match index r with
          | Some x =>
              if decide (head r = Some x)
              then (Thrown (mkError "nothing to commit, working tree clean"), cwd, w)
              else (Returned "", cwd, setRepo w cwd (mkRepo (Some x) (Some x)))
          | None => (Thrown (mkError "nothing to commit"), cwd, w)
          end
      | None => (Thrown (mkError "fatal: not a git repository"), cwd, w)
      end
  | GitDiff =>
      match repos w !! cwd with
      | Some r =>
          match index r with
          | Some (name, old) =>
              match files w !! resolve cwd name with
              | Some new =>
                  if decide (old = new) then (Returned "", cwd, w)
                  else (Returned (mkPatch name old new), cwd, w)
              | None => (Returned "", cwd, w)
              end
          | None => (Returned "", cwd, w)
          end
      | None => (Thrown (mkError "fatal: not a git repository"), cwd, w)
      end
  | GitApply threeWay patchFile =>
      if threeWay && negb (bool_decide (is_Some (repos w !! cwd)))
      then (Thrown (mkError "fatal: --3way outside a repository"), cwd, w)
      else
        match files w !! resolve cwd patchFile with
        | Some t =>
            match parsePatch t with
            | Some (name, old, new) =>
                if decide (files w !! resolve cwd name = Some old)
                then (Returned "", cwd, setFiles w (<[resolve cwd name := new]> (files w)))
                else (Thrown (mkError ("error: patch failed: " +:+ name)), cwd, w)
            | None => (Thrown (mkError "error: No valid patches in input"), cwd, w)
            end
        | None =>
            (Thrown (mkError ("error: can't open patch '" +:+ patchFile +:+ "'")), cwd, w)
        end
  end.

(** An and-list stops at the first command that fails. *)
Fixpoint runAll (cs : list (option ShellCmd)) (cwd out : string) (w : Machine)
  : Outcome ExecOutput * Machine :=
  match cs with
  | [] => (Returned (mkExecOutput out ""), w)
  | None :: _ => (Thrown (mkError "sh: command not found"), w)
  | Some c :: cs' =>
      match runCmd c cwd w with
      | (Returned o, cwd', w') => runAll cs' cwd' (out +:+ o) w'
      | (Thrown e, _, w') => (Thrown e, w')
      end
  end.

Definition commands (commandLine : string) : list (option ShellCmd) :=
  map parseArgv (splitOn "&&" (shellWords commandLine)).

(** [exec(commandLine)]: rejected when the command line fails. *)
Definition m_exec (commandLine : string) (w : Machine) : Outcome ExecOutput * Machine :=
  match runAll (commands commandLine) "/" "" w with
  | (Returned out, w') => (Returned out, w')
  | (Thrown e, w') =>
      (Thrown (mkError ("Command failed: " +:+ commandLine +:+ JS.nl +:+ message e)), w')
  end.

Definition machine : Sys := {|
  world := Machine;
  fs_stat := m_stat;
  fs_mkdir := m_mkdir;
  fs_copyFile := m_copyFile;
  fs_readFile := m_readFile;
  fs_writeFile := m_writeFile;
  fs_rm := m_rm;
  readFile := m_readFile;
  writeFile := m_writeFile;
  exec := m_exec;
  date_now := m_now;
  os_tmpdir := "/tmp";
  path_join := join;
  path_basename := basename;
  path_dirname := dirname
|}.

(** A machine holding one file, with the directories [/tmp] and [dir]. *)
Definition oneFile (dir path content : string) : Machine :=
  mkMachine {[path := content]} {["/tmp"; dir]} ∅ 1700000000000.

Definition start (w : Machine) : @State machine := @mkState machine w [].

End Ref.

(* ===================================================================== *)
(** * Part 10. Contracts of the collaborators                             *)
(* ===================================================================== *)

Section Contracts.
Context {sys : Sys}.

(** [content w p] is the text of the file [p] in the machine state [w].
    A reliable store answers [stat], [readFile] and [writeFile] on a file
    that exists, and no primitive touches a file it is not asked to write. *)
Record ReliableStore (content : world -> string -> option string) : Prop := {
  rs_now : forall w q, content (date_now w).2 q = content w q;
  rs_stat_frame : forall p w q, content (fs_stat p w).2 q = content w q;
  rs_stat : forall p w c,
    content w p = Some c -> (fs_stat p w).1 = Returned (byteLength c);
  rs_readFile_frame : forall p w q, content (readFile p w).2 q = content w q;
  rs_readFile : forall p w c,
    content w p = Some c -> (readFile p w).1 = Returned c;
  rs_writeFile_frame : forall p x w q,
    q <> p -> content (writeFile p x w).2 q = content w q;
  rs_writeFile : forall p x w c,
    content w p = Some c ->
    (writeFile p x w).1 = Returned tt /\ content (writeFile p x w).2 p = Some x;
  rs_mkdir : forall d w q, content (fs_mkdir d w).2 q = content w q;
  rs_copyFile_frame : forall src dst w q,
    q <> dst -> content (fs_copyFile src dst w).2 q = content w q;
  rs_copyFile : forall src dst w u,
    (fs_copyFile src dst w).1 = Returned u ->
    content (fs_copyFile src dst w).2 dst = content w src;
  rs_fs_readFile_frame : forall p w q, content (fs_readFile p w).2 q = content w q;
  rs_fs_readFile : forall p w x,
    (fs_readFile p w).1 = Returned x -> content w p = Some x;
  rs_fs_writeFile_frame : forall p x w q,
    q <> p -> content (fs_writeFile p x w).2 q = content w q;
  rs_fs_writeFile : forall p x w u,
    (fs_writeFile p x w).1 = Returned u -> content (fs_writeFile p x w).2 p = Some x
}.

(** The workspace [T] is apart from the target file [p]: [p] is not the
    workspace copy, removing the workspace leaves [p] alone, and [git init],
    [git add] and [git commit], run in the workspace, leave [p] and the
    workspace copy alone. *)
Record WorkspaceContract (content : world -> string -> option string)
    (p T : string) : Prop := {
  wc_outside_copy : p <> tempFilePathIn T p;
  wc_rm : forall w, content (fs_rm T w).2 p = content w p;
  wc_init : forall w q,
    q = p \/ q = tempFilePathIn T p ->
    content (exec (initCmd T) w).2 q = content w q;
  wc_commit : forall w q,
    q = p \/ q = tempFilePathIn T p ->
    content (exec (commitCmd T (path_basename p)) w).2 q = content w q
}.

(** The state in which the selector starts an engine, after [stat]. *)
Definition afterStat (filePath : string) (st : State) : State :=
  mkState (fs_stat filePath (env st)).2 (trace st ++ [EvStat filePath]).

(** The workspace directory the diff/patch engine will use when it is
    started in [st]. *)
Definition workspaceOf (st : State) : string :=
  tempDirAt (date_now (env st)).1.

End Contracts.

(* ===================================================================== *)
(** * Part 11. The reference machine against the contracts                *)
(* ===================================================================== *)

(** The exec events of [evs] all carry one of the command lines [cmds]. *)
Definition execFrom (cmds : list string) (ev : Event) : bool :=
  match ev with
  | EvExec cmd => bool_decide (cmd ∈ cmds)
  | _ => true
  end.

Module RefContract.

Definition content (w : Ref.Machine) (q : string) : option string := Ref.files w !! q.

End RefContract.

(** The block text of scenario 3 of the specification. *)
Definition scenario3 : string :=
  "test-file.txt" +:+ JS.nl +:+ "<<<<<<< SEARCH" +:+ JS.nl +:+ "original content" +:+ JS.nl
  +:+ "=======" +:+ JS.nl +:+ "new content" +:+ JS.nl +:+ ">>>>>>> REPLACE".

(** A block whose markers are all present but out of order: the divider
    comes first. *)
Definition misorderedBlock : string :=
  "test-file.txt" +:+ JS.nl +:+ "=======" +:+ JS.nl +:+ "new content" +:+ JS.nl
  +:+ "<<<<<<< SEARCH" +:+ JS.nl +:+ "original content" +:+ JS.nl +:+ ">>>>>>> REPLACE".

(** The inputs of the runs on the reference machine. *)
Definition scenario1 : string :=
  "This is a test file with original content that will be replaced.".

Definition block1 : SearchReplace := mkSearchReplace "original content" "new content".

Definition workFile : string := "/tmp/work/a.txt".
Definition workState : @State Ref.machine :=
  Ref.start (Ref.oneFile "/tmp/work" workFile scenario1).

(** A file in a directory whose name has a blank. *)
Definition blankFile : string := "/tmp/my dir/a.txt".
Definition blankState : @State Ref.machine :=
  Ref.start (Ref.oneFile "/tmp/my dir" blankFile scenario1).

(** The workspace of an engine started in [workState] or [blankState]. *)
Definition workspace1 : string := "/tmp/git-edit-1700000000000".

Definition patch1 : string := "/tmp/git-edit-1700000000000/changes.patch".

Definition isApply (c : option Ref.ShellCmd) : bool :=
  match c with
  | Some (Ref.GitApply _ _) => true
  | _ => false
  end.

(** A search text that does not occur in [scenario1]. *)
Definition blockAbsent : SearchReplace := mkSearchReplace "zzz" "y".

(* ===================================================================== *)
(** * Part 12. Vocabulary of the further properties                       *)
(* ===================================================================== *)

(** The text of a block as the docstring of [parseEditBlock] lays it out:
    the path, the opening marker, the search text, the divider, the replace
    text and the closing marker, each starting on a line of its own. *)
Definition blockText (path searchText replaceText : string) : string :=
  path +:+ JS.nl +:+ SEARCH_MARKER +:+ JS.nl +:+ searchText +:+ JS.nl
  +:+ DIVIDER_MARKER +:+ JS.nl +:+ replaceText +:+ JS.nl +:+ REPLACE_MARKER.

(** Carriage return, and the line terminator CR LF. *)
Definition CR : ascii := "013"%char.
Definition crnl : string := String CR (String JS.LF "").

(** [s] with every line feed turned into CR LF. *)
Definition toCRLF (s : string) : string := JS.join crnl (JS.split JS.LF s).

(** The last code unit of a text. *)
Fixpoint lastChar (s : string) : option ascii :=
  match s with
  | EmptyString => None
  | String c EmptyString => Some c
  | String _ s' => lastChar s'
  end.

(** The characters that [sh] takes literally in an unquoted word, and on
    which the word splitting of Part 8 is therefore that of [sh]: the
    portable file name characters of POSIX (letters, digits, period,
    underscore, hyphen) and the slash. *)
Definition portableChar (c : ascii) : bool :=
  let n := N_of_ascii c in
  ((48 <=? n) && (n <=? 57) || (65 <=? n) && (n <=? 90) || (97 <=? n) && (n <=? 122)
   || (n =? 45) || (n =? 46) || (n =? 47) || (n =? 95))%N.

Fixpoint portableChars (s : string) : bool :=
  match s with
  | EmptyString => true
  | String c s' => portableChar c && portableChars s'
  end.

(** A non-empty path made of portable characters. *)
Definition portablePath (s : string) : bool :=
  negb (bool_decide (s = "")) && portableChars s.

(** The reserved words of the shell that are made of portable characters. *)
Definition reservedWords : list string :=
  ["case"; "do"; "done"; "elif"; "else"; "esac"; "fi"; "for"; "function"; "if"; "in";
   "select"; "then"; "time"; "until"; "while"].

(** A word that the shell takes for the name of a simple command. *)
Definition commandName (s : string) : bool :=
  portablePath s && negb (bool_decide (s ∈ reservedWords)).


Section EngineCalls.
Context {sys : Sys}.

(** The calls of the [try] block of [gitBasedReplace], lines 86-132, in
    the order of the source, for the new content and the patch text it
    handles. *)
Definition engineCalls (filePath tempDir newContent patchContent : string) : list Event :=
  [ EvMkdir tempDir;
    EvCopyFile filePath (tempFilePathIn tempDir filePath);
    EvExec (initCmd tempDir);
    EvExec (commitCmd tempDir (path_basename filePath));
    EvFsReadFile (tempFilePathIn tempDir filePath);
    EvFsWriteFile (tempFilePathIn tempDir filePath) newContent;
    EvExec (diffCmd tempDir);
    EvFsWriteFile (patchFileIn tempDir) patchContent;
    EvExec (applyCmd (path_dirname filePath) (patchFileIn tempDir));
    EvExec (apply3wayCmd (path_dirname filePath) (patchFileIn tempDir)) ].

(** [e] is what one of the primitives of the [try] block, other than the
    two patch applications, has thrown in some state of the machine. *)
Definition thrownByStep (filePath tempDir : string) (e : JsError) : Prop :=
  exists w,
    (fs_mkdir tempDir w).1 = Thrown e
    \/ (fs_copyFile filePath (tempFilePathIn tempDir filePath) w).1 = Thrown e
    \/ (exec (initCmd tempDir) w).1 = Thrown e
    \/ (exec (commitCmd tempDir (path_basename filePath)) w).1 = Thrown e
    \/ (fs_readFile (tempFilePathIn tempDir filePath) w).1 = Thrown e
    \/ (exists x, (fs_writeFile (tempFilePathIn tempDir filePath) x w).1 = Thrown e)
    \/ (exec (diffCmd tempDir) w).1 = Thrown e
    \/ (exists x, (fs_writeFile (patchFileIn tempDir) x w).1 = Thrown e).

(** [e] is the error of lines 129-131: the direct application of the patch
    has thrown, the three-way application has thrown [retryError] in the
    state the first one left, and [e] carries the text of [retryError]
    alone. *)
Definition thrownByApply (filePath tempDir : string) (e : JsError) : Prop :=
  exists w applyError w1 retryError,
    exec (applyCmd (path_dirname filePath) (patchFileIn tempDir)) w = (Thrown applyError, w1)
    /\ (exec (apply3wayCmd (path_dirname filePath) (patchFileIn tempDir)) w1).1
       = Thrown retryError
    /\ e = mkError ("Failed to apply changes: Error: " +:+ message retryError).

End EngineCalls.

(** Further inputs of the runs on the reference machine: a path at which
    there is no file, and the error with which the diff/patch engine gives
    up on [blankFile]. *)
Definition missingFile : string := "/tmp/work/missing.txt".

(** A file with the base name of [blankFile], in the directory that the
    first word of the directory of [blankFile] names, and a machine that
    holds both files with the content [c]. *)
Definition twinFile : string := "/tmp/my/a.txt".

Definition twinMachine (c : string) : Ref.Machine :=
  Ref.mkMachine {[blankFile := c; twinFile := c]} {["/tmp"; "/tmp/my dir"; "/tmp/my"]} ∅
    1700000000000.



Definition blankApplyError : JsError :=
  mkError ("Failed to apply changes: Error: Command failed: "
           +:+ "cd /tmp/my dir && git apply --3way /tmp/git-edit-1700000000000/changes.patch"
           +:+ JS.nl +:+ "cd: can't cd to /tmp/my").

(* ===================================================================== *)
(** * Sanity checks of the library model                                  *)
(* ===================================================================== *)

Example parse_scenario3 :
  parseEditBlock scenario3
  = Returned (mkEditBlock "test-file.txt" (mkSearchReplace "original content" "new content")).
Proof. vm_compute. reflexivity. Qed.

Example indexOf_examples :
  JS.indexOf "hello world" "o w" = 4 /\ JS.indexOf "abc" "" = 0 /\
  JS.indexOf "abc" "x" = -1 /\ JS.indexOf "" "" = 0 /\ JS.indexOf "aXbX" "X" = 1.
Proof. vm_compute. repeat split. Qed.

Example substring_examples :
  JS.substring "abcdef" 2 4 = "cd" /\ JS.substring "abcdef" 4 2 = "cd" /\
  JS.substring "abcdef" (-3) 2 = "ab" /\ JS.substringFrom "abcdef" 4 = "ef" /\
  JS.substringFrom "abcdef" 9 = "".
Proof. vm_compute. repeat split. Qed.

Example split_examples :
  JS.split JS.LF "" = [""] /\
  JS.split JS.LF ("a" +:+ JS.nl +:+ JS.nl +:+ "b" +:+ JS.nl) = ["a"; ""; "b"; ""].
Proof. vm_compute. repeat split. Qed.

Example slice_examples :
  JS.slice [1;2;3;4;5] 1 3 = [2;3] /\ JS.slice [1;2;3;4;5] 4 1 = [] /\
  JS.slice [1;2;3;4;5] (-2) 9 = [4;5].
Proof. vm_compute. repeat split. Qed.

Example trim_examples : JS.trim "  a b  " = "a b" /\ JS.trim "   " = "".
Proof. vm_compute. repeat split. Qed.

Example ref_path_examples :
  Ref.basename "/tmp/my dir/a.txt" = "a.txt" /\ Ref.dirname "/tmp/my dir/a.txt" = "/tmp/my dir" /\
  Ref.dirname "/a" = "/" /\ Ref.dirname "a" = "." /\ Ref.basename "/a/b/" = "b" /\
  Ref.join "/tmp" "git-edit-17" = "/tmp/git-edit-17" /\
  Ref.join "/tmp/x" "../y" = "/tmp/y" /\ Ref.join "a//b/" "./c" = "a/b/c".
Proof. vm_compute. repeat split. Qed.

Example ref_words_examples :
  shellWords (commitCmd "/tmp/x" "a.txt")
  = ["cd"; "/tmp/x"; "&&"; "git"; "add"; "a.txt"; "&&"; "git"; "commit"; "-m"; "Original file"].
Proof. vm_compute. reflexivity. Qed.

Example ref_patch_roundtrip_example :
  Ref.parsePatch (Ref.mkPatch "a.txt" ("x" +:+ JS.nl +:+ "y") ("x" +:+ JS.nl +:+ "z" +:+ JS.nl))
  = Some ("a.txt", "x" +:+ JS.nl +:+ "y", "x" +:+ JS.nl +:+ "z" +:+ JS.nl).
Proof. vm_compute. reflexivity. Qed.

(* ===================================================================== *)
(** * Strings: append, take and drop                                      *)
(* ===================================================================== *)

Lemma app_cons a (s t : string) : String a s +:+ t = String a (s +:+ t).
Proof. reflexivity. Qed.

Lemma app_empty_l (s : string) : "" +:+ s = s.
Proof. reflexivity. Qed.

Lemma app_empty_r (s : string) : s +:+ "" = s.
Proof. induction s as [|a s IH]; [reflexivity|]. rewrite app_cons, IH. reflexivity. Qed.

Lemma app_assoc_str (s t u : string) : (s +:+ t) +:+ u = s +:+ (t +:+ u).
Proof. induction s as [|a s IH]; [reflexivity|]. rewrite !app_cons, IH. reflexivity. Qed.

Lemma length_app_str (s t : string) :
  String.length (s +:+ t) = (String.length s + String.length t)%nat.
Proof. induction s as [|a s IH]; [reflexivity|]. rewrite app_cons. simpl. rewrite IH. reflexivity. Qed.

Lemma str_take_drop n (s : string) : JS.str_take n s +:+ JS.str_drop n s = s.
Proof.
  revert s. induction n as [|n IH]; intros [|a s]; simpl; try reflexivity.
  rewrite app_cons, IH. reflexivity.
Qed.

Lemma str_drop_app (s t : string) : JS.str_drop (String.length s) (s +:+ t) = t.
Proof. induction s as [|a s IH]; [reflexivity|]. rewrite app_cons. simpl. exact IH. Qed.

Lemma str_take_all n (s : string) : (String.length s <= n)%nat -> JS.str_take n s = s.
Proof.
  revert s. induction n as [|n IH]; intros [|a s] H; simpl in *; try reflexivity; try lia.
  rewrite IH by lia. reflexivity.
Qed.

Lemma str_take_length n (s : string) :
  (n <= String.length s)%nat -> String.length (JS.str_take n s) = n.
Proof.
  revert s. induction n as [|n IH]; intros [|a s] H; simpl in *; try reflexivity; try lia.
  rewrite IH by lia. reflexivity.
Qed.

Lemma str_drop_length n (s : string) :
  String.length (JS.str_drop n s) = (String.length s - n)%nat.
Proof.
  revert s. induction n as [|n IH]; intros [|a s]; simpl; try reflexivity; try lia. apply IH.
Qed.

(** [substring] with in-range arguments is a take of a drop. *)
Lemma substring_0 (s : string) (i : nat) :
  (i <= String.length s)%nat -> JS.substring s 0 (Z.of_nat i) = JS.str_take i s.
Proof.
  intros H. unfold JS.substring, JS.clamp.
  replace (Z.to_nat (Z.min (Z.max 0 0) (Z.of_nat (String.length s)))) with 0%nat by lia.
  replace (Z.to_nat (Z.min (Z.max (Z.of_nat i) 0) (Z.of_nat (String.length s)))) with i by lia.
  rewrite Nat.min_0_l, Nat.max_0_l, Nat.sub_0_r. reflexivity.
Qed.

Lemma substringFrom_drop (s : string) (k : nat) :
  JS.substringFrom s (Z.of_nat k) = JS.str_drop k s.
Proof.
  unfold JS.substringFrom, JS.substring, JS.clamp, JS.len.
  set (n := String.length s).
  replace (Z.to_nat (Z.min (Z.max (Z.of_nat n) 0) (Z.of_nat n))) with n by lia.
  destruct (decide (k <= n)%nat) as [Hk|Hk].
  - replace (Z.to_nat (Z.min (Z.max (Z.of_nat k) 0) (Z.of_nat n))) with k by lia.
    rewrite Nat.min_l, Nat.max_r by lia.
    apply str_take_all. rewrite str_drop_length. subst n. lia.
  - replace (Z.to_nat (Z.min (Z.max (Z.of_nat k) 0) (Z.of_nat n))) with n by lia.
    rewrite Nat.min_id, Nat.max_id, Nat.sub_diag.
    assert (JS.str_drop k s = "") as ->.
    { assert (String.length (JS.str_drop k s) = 0%nat) as H0
        by (rewrite str_drop_length; subst n; lia).
      destruct (JS.str_drop k s); [reflexivity|discriminate]. }
    destruct (JS.str_drop n s); reflexivity.
Qed.

(* ===================================================================== *)
(** * [startsWith] and [indexOf]                                          *)
(* ===================================================================== *)

Lemma startsWith_empty (c : string) : JS.startsWith c "" = true.
Proof. destruct c; reflexivity. Qed.

Lemma startsWith_cons a b (c s : string) :
  JS.startsWith (String b c) (String a s)
  = if decide (a = b) then JS.startsWith c s else false.
Proof. reflexivity. Qed.

Lemma startsWith_nil_cons a (s : string) : JS.startsWith "" (String a s) = false.
Proof. reflexivity. Qed.

Lemma indexOf_nil (s : string) :
  JS.indexOf "" s = if JS.startsWith "" s then 0 else -1.
Proof. reflexivity. Qed.

Lemma indexOf_cons a (c s : string) :
  JS.indexOf (String a c) s
  = if JS.startsWith (String a c) s then 0
    else if JS.indexOf c s =? -1 then -1 else JS.indexOf c s + 1.
Proof. reflexivity. Qed.

Global Arguments JS.startsWith : simpl never.
Global Arguments JS.indexOf : simpl never.

Lemma startsWith_iff (c s : string) :
  JS.startsWith c s = true <-> exists post, c = s +:+ post.
Proof.
  revert c. induction s as [|a s IH]; intros c.
  - rewrite startsWith_empty. split; [intros _; exists c; reflexivity|reflexivity].
  - destruct c as [|b c].
    + rewrite startsWith_nil_cons.
      split; [discriminate|]. intros [post H]. rewrite app_cons in H. discriminate.
    + rewrite startsWith_cons. destruct (decide (a = b)) as [->|Hne].
      * rewrite IH. split; intros [post H]; exists post.
        -- rewrite app_cons, H. reflexivity.
        -- rewrite app_cons in H. congruence.
      * split; [discriminate|]. intros [post H]. rewrite app_cons in H. congruence.
Qed.

Lemma indexOf_range (c s : string) : -1 <= JS.indexOf c s <= JS.len c.
Proof.
  unfold JS.len. induction c as [|a c IH].
  - rewrite indexOf_nil. destruct (JS.startsWith "" s); simpl; lia.
  - rewrite indexOf_cons. destruct (JS.startsWith (String a c) s); [simpl; lia|].
    destruct (Z.eqb_spec (JS.indexOf c s) (-1)); simpl String.length; lia.
Qed.

Lemma startsWith_split (c s : string) :
  JS.startsWith c s = true -> c = s +:+ JS.str_drop (String.length s) c.
Proof.
  intros [post ->]%startsWith_iff. rewrite str_drop_app. reflexivity.
Qed.

(** A found index splits the content around the search string, and no
    occurrence starts before it. *)
Lemma indexOf_found (c s : string) (i : nat) :
  JS.indexOf c s = Z.of_nat i ->
  FirstOccurrence c s (JS.str_take i c) (JS.str_drop (i + String.length s) c).
Proof.
  revert i. induction c as [|a c IH]; intros i.
  - rewrite indexOf_nil. destruct (JS.startsWith "" s) eqn:Hs; [|lia].
    intros Hi. assert (i = 0%nat) as -> by lia. split.
    + apply startsWith_split in Hs. exact Hs.
    + intros; simpl; lia.
  - rewrite indexOf_cons. destruct (JS.startsWith (String a c) s) eqn:Hs.
    + intros Hi. assert (i = 0%nat) as -> by lia. split.
      * apply startsWith_split in Hs. exact Hs.
      * intros; simpl; lia.
    + destruct (Z.eqb_spec (JS.indexOf c s) (-1)) as [|Hne]; [lia|].
      intros Hi. destruct i as [|i]; [lia|].
      destruct (IH i ltac:(lia)) as [Heq Hmin].
      pose proof (indexOf_range c s) as Hr. unfold JS.len in Hr. split.
      * simpl. rewrite app_cons. f_equal. exact Heq.
      * intros pre' post' H'. destruct pre' as [|b pre'].
        -- rewrite app_empty_l in H'.
           assert (JS.startsWith (String a c) s = true) as Hc
             by (apply startsWith_iff; eauto).
           congruence.
        -- rewrite app_cons in H'. injection H' as _ H'.
           specialize (Hmin _ _ H').
           rewrite str_take_length in Hmin by lia.
           simpl. rewrite str_take_length by lia. lia.
Qed.

(** [indexOf] answers [-1] exactly when the search string does not occur. *)
Lemma not_startsWith_no_empty_prefix (c s post : string) :
  JS.startsWith c s = false -> c <> "" +:+ s +:+ post.
Proof.
  intros Hs H. rewrite app_empty_l in H.
  assert (JS.startsWith c s = true) by (apply startsWith_iff; eauto). congruence.
Qed.

Lemma IsSubstring_cons a (c s : string) :
  JS.startsWith (String a c) s = false ->
  IsSubstring s (String a c) <-> IsSubstring s c.
Proof.
  intros Hs. split; intros (pre & post & H).
  - destruct pre as [|b pre].
    + exfalso. eapply not_startsWith_no_empty_prefix; eauto.
    + rewrite app_cons in H. injection H as _ H. exists pre, post. exact H.
  - exists (String a pre), post. rewrite app_cons, H. reflexivity.
Qed.

Lemma IsSubstring_nil (s : string) :
  JS.startsWith "" s = false -> ~ IsSubstring s "".
Proof.
  intros Hs (pre & post & H). destruct pre; [|rewrite app_cons in H; discriminate].
  eapply not_startsWith_no_empty_prefix; eauto.
Qed.

Lemma startsWith_IsSubstring (c s : string) :
  JS.startsWith c s = true -> IsSubstring s c.
Proof. intros [post Hp]%startsWith_iff. exists "", post. exact Hp. Qed.

Lemma indexOf_absent (c s : string) :
  JS.indexOf c s = -1 <-> ~ IsSubstring s c.
Proof.
  induction c as [|a c IH].
  - rewrite indexOf_nil. destruct (JS.startsWith "" s) eqn:Hs.
    + split; [lia|]. intros H. exfalso. apply H. apply startsWith_IsSubstring, Hs.
    + split; [|reflexivity]. intros _. apply IsSubstring_nil, Hs.
  - rewrite indexOf_cons. destruct (JS.startsWith (String a c) s) eqn:Hs.
    + split; [lia|]. intros H. exfalso. apply H. apply startsWith_IsSubstring, Hs.
    + rewrite (IsSubstring_cons _ _ _ Hs), <- IH.
      pose proof (indexOf_range c s).
      destruct (Z.eqb_spec (JS.indexOf c s) (-1)); split; lia.
Qed.

Lemma indexOf_present (c s : string) :
  IsSubstring s c -> exists i : nat, JS.indexOf c s = Z.of_nat i.
Proof.
  intros H. pose proof (indexOf_range c s) as Hr.
  destruct (decide (JS.indexOf c s = -1)) as [Heq|Hne].
  - apply indexOf_absent in Heq. contradiction.
  - exists (Z.to_nat (JS.indexOf c s)). lia.
Qed.

Lemma indexOf_empty (c : string) : JS.indexOf c "" = 0.
Proof. destruct c; reflexivity. Qed.

(** The new content of both engines, in terms of take and drop. *)
Lemma spliced_eq (c : string) (b : SearchReplace) (i : nat) :
  JS.indexOf c (search b) = Z.of_nat i ->
  spliced c (Z.of_nat i) b
  = JS.str_take i c +:+ replace b +:+ JS.str_drop (i + String.length (search b)) c.
Proof.
  intros Hi. unfold spliced, JS.len.
  pose proof (indexOf_range c (search b)) as Hr. unfold JS.len in Hr.
  rewrite substring_0 by lia.
  rewrite <- Nat2Z.inj_add, substringFrom_drop. reflexivity.
Qed.

Lemma occurrences_pos (c s : string) :
  (0 < occurrences c s)%nat <-> IsSubstring s c.
Proof.
  induction c as [|a c IH]; simpl.
  - destruct (JS.startsWith "" s) eqn:Hs.
    + split; [|lia]. intros _. apply startsWith_IsSubstring, Hs.
    + split; [lia|]. intros H. exfalso. revert H. apply IsSubstring_nil, Hs.
  - destruct (JS.startsWith (String a c) s) eqn:Hs.
    + split; [|lia]. intros _. apply startsWith_IsSubstring, Hs.
    + rewrite (IsSubstring_cons _ _ _ Hs), <- IH. simpl. reflexivity.
Qed.

(* ===================================================================== *)
(** * Arrays of lines: [split], [indexOf] and [slice]                     *)
(* ===================================================================== *)

Lemma split_nonempty sep (s : string) : JS.split sep s <> [].
Proof.
  induction s as [|c s IH]; simpl; [discriminate|].
  destruct (decide (c = sep)); [discriminate|].
  destruct (JS.split sep s); discriminate.
Qed.

Lemma head_split (s : string) : head (JS.split JS.LF s) = Some (firstLine s).
Proof.
  induction s as [|c s IH]; simpl; [reflexivity|].
  destruct (decide (c = JS.LF)); [reflexivity|].
  destruct (JS.split JS.LF s) as [|l ls]; simpl in *; congruence.
Qed.

Lemma split_line (x s : string) :
  lineFree x = true -> JS.split JS.LF (x +:+ String JS.LF s) = x :: JS.split JS.LF s.
Proof.
  induction x as [|ch x IH]; intros Hx.
  - rewrite app_empty_l. simpl. destruct (decide (JS.LF = JS.LF)); [reflexivity|congruence].
  - simpl in Hx. rewrite app_cons. simpl.
    destruct (decide (ch = JS.LF)); [discriminate|].
    rewrite IH by exact Hx. reflexivity.
Qed.

Lemma split_lineFree (x : string) : lineFree x = true -> JS.split JS.LF x = [x].
Proof.
  induction x as [|ch x IH]; intros Hx; [reflexivity|].
  simpl in *. destruct (decide (ch = JS.LF)); [discriminate|].
  rewrite IH by exact Hx. reflexivity.
Qed.

Lemma join_cons2 sep (x y : string) (l : list string) :
  JS.join sep (x :: y :: l) = x +:+ sep +:+ JS.join sep (y :: l).
Proof. reflexivity. Qed.

Lemma split_join (l : list string) :
  l <> [] -> Forall (fun x => lineFree x = true) l ->
  JS.split JS.LF (JS.join JS.nl l) = l.
Proof.
  induction l as [|x l IH]; intros Hne Hall; [contradiction|].
  apply Forall_cons in Hall as [Hx Hl].
  destruct l as [|y l].
  - simpl. apply split_lineFree, Hx.
  - rewrite join_cons2. change (JS.nl +:+ ?r) with (String JS.LF r).
    rewrite split_line by exact Hx. f_equal. apply IH; [discriminate|exact Hl].
Qed.

Lemma lineFree_split (s : string) :
  Forall (fun x => lineFree x = true) (JS.split JS.LF s).
Proof.
  induction s as [|ch s IH]; simpl.
  - repeat constructor.
  - destruct (decide (ch = JS.LF)) as [->|Hne].
    + constructor; [reflexivity|exact IH].
    + destruct (JS.split JS.LF s) as [|l ls]; [repeat constructor; simpl|].
      * destruct (decide (ch = JS.LF)); [contradiction|reflexivity].
      * apply Forall_cons in IH as [Hl Hls]. constructor; [|exact Hls].
        simpl. destruct (decide (ch = JS.LF)); [contradiction|exact Hl].
Qed.

Lemma join_split (s : string) : JS.join JS.nl (JS.split JS.LF s) = s.
Proof.
  induction s as [|ch s IH]; [reflexivity|]. simpl.
  pose proof (split_nonempty JS.LF s) as Hne.
  destruct (decide (ch = JS.LF)) as [->|Hch].
  - destruct (JS.split JS.LF s) as [|l ls]; [contradiction|].
    rewrite join_cons2, IH. reflexivity.
  - destruct (JS.split JS.LF s) as [|l ls]; [contradiction|].
    destruct ls as [|l' ls].
    + simpl in *. rewrite IH. reflexivity.
    + rewrite join_cons2 in *. rewrite app_cons, IH. reflexivity.
Qed.

Lemma lineFree_app (s t : string) :
  lineFree (s +:+ t) = lineFree s && lineFree t.
Proof.
  induction s as [|ch s IH]; [reflexivity|]. rewrite app_cons. simpl.
  destruct (decide (ch = JS.LF)); [reflexivity|exact IH].
Qed.

Lemma arr_indexOf_app (l1 l2 : list string) x :
  x ∉ l1 -> JS.arr_indexOf (l1 ++ x :: l2) x = Z.of_nat (length l1).
Proof.
  induction l1 as [|y l1 IH]; intros Hx; simpl.
  - destruct (decide (x = x)); [reflexivity|congruence].
  - apply not_elem_of_cons in Hx as [Hne Hx].
    destruct (decide (y = x)); [congruence|].
    rewrite IH by exact Hx.
    destruct (Z.eqb_spec (Z.of_nat (length l1)) (-1)); lia.
Qed.

Lemma arr_indexOf_range (l : list string) x :
  -1 <= JS.arr_indexOf l x < Z.of_nat (length l) \/
  (JS.arr_indexOf l x = -1 /\ l = []).
Proof.
  induction l as [|y l IH]; simpl; [right; split; reflexivity|left].
  destruct (decide (y = x)); [lia|].
  destruct (Z.eqb_spec (JS.arr_indexOf l x) (-1)); [lia|].
  destruct IH as [IH|[IH _]]; lia.
Qed.

Lemma arr_indexOf_absent (l : list string) x :
  JS.arr_indexOf l x = -1 <-> x ∉ l.
Proof.
  induction l as [|y l IH]; simpl.
  - split; [intros _; apply not_elem_of_nil|reflexivity].
  - rewrite not_elem_of_cons. destruct (decide (y = x)) as [->|Hne].
    + split; [lia|]. intros [H _]. congruence.
    + destruct (Z.eqb_spec (JS.arr_indexOf l x) (-1)) as [Heq|Hneq].
      * split; [|reflexivity]. intros _. split; [congruence|]. apply IH, Heq.
      * split.
        -- destruct (arr_indexOf_range l x) as [?|[? _]]; lia.
        -- intros [_ H]. apply IH in H. contradiction.
Qed.

Lemma arr_indexOf_first (l : list string) x (i : nat) :
  FirstIndex l x i -> JS.arr_indexOf l x = Z.of_nat i.
Proof.
  revert i. induction l as [|y l IH]; intros i [Hi Hmin]; simpl.
  - rewrite lookup_nil in Hi. discriminate.
  - destruct (decide (y = x)) as [->|Hne].
    + destruct i as [|i]; [reflexivity|].
      exfalso. apply (Hmin 0%nat); [lia|reflexivity].
    + destruct i as [|i]; [simpl in Hi; congruence|].
      rewrite (IH i).
      * destruct (Z.eqb_spec (Z.of_nat i) (-1)); lia.
      * split; [exact Hi|]. intros j Hj. apply (Hmin (S j)). lia.
Qed.

Lemma omap_lookup_seq {A} (l : list A) (a n : nat) :
  (a + n <= length l)%nat ->
  omap (fun k => l !! k) (seq a n) = take n (drop a l).
Proof.
  revert a. induction n as [|n IH]; intros a H; [reflexivity|].
  destruct (lookup_lt_is_Some_2 l a ltac:(lia)) as [x Hx].
  simpl. rewrite Hx. rewrite (drop_S _ _ _ Hx). simpl. f_equal.
  apply IH. lia.
Qed.

Lemma relIndex_nat (n k : nat) : JS.relIndex n (Z.of_nat k) = Nat.min k n.
Proof.
  unfold JS.relIndex. destruct (Z.ltb_spec (Z.of_nat k) 0); lia.
Qed.

(** For indices of lines that exist, [slice (i + 1) j] is the list of the
    lines strictly between [i] and [j]; it is empty when [j <= i]. *)
Lemma slice_linesBetween (l : list string) (i j : nat) :
  (i < length l)%nat -> (j < length l)%nat ->
  JS.slice l (Z.of_nat i + 1) (Z.of_nat j) = linesBetween l i j.
Proof.
  intros Hi Hj. unfold JS.slice, linesBetween.
  replace (Z.of_nat i + 1) with (Z.of_nat (i + 1)) by lia.
  rewrite !relIndex_nat.
  rewrite (Nat.min_l (i + 1)), (Nat.min_l j) by lia.
  rewrite omap_lookup_seq by lia. f_equal. lia.
Qed.

Lemma FirstIndex_lt (l : list string) x i : FirstIndex l x i -> (i < length l)%nat.
Proof. intros [H _]. eapply lookup_lt_Some, H. Qed.

(* ===================================================================== *)
(** * [parseEditBlock]                                                    *)
(* ===================================================================== *)

(** With the three markers present, whatever their order, the result is
    made of the trimmed first line and of two slices of the lines. *)
Lemma parseEditBlock_run (blockContent : string) (s d e : nat) :
  FirstIndex (JS.split JS.LF blockContent) SEARCH_MARKER s ->
  FirstIndex (JS.split JS.LF blockContent) DIVIDER_MARKER d ->
  FirstIndex (JS.split JS.LF blockContent) REPLACE_MARKER e ->
  parseEditBlock blockContent
  = Returned (mkEditBlock
      (JS.trim (firstLine blockContent))
      (mkSearchReplace
         (JS.join JS.nl (JS.slice (JS.split JS.LF blockContent) (Z.of_nat s + 1) (Z.of_nat d)))
         (JS.join JS.nl (JS.slice (JS.split JS.LF blockContent) (Z.of_nat d + 1) (Z.of_nat e))))).
Proof.
  intros Hs Hd He. unfold parseEditBlock.
  pose proof (head_split blockContent) as Hhd.
  rewrite (arr_indexOf_first _ _ _ Hs), (arr_indexOf_first _ _ _ Hd),
    (arr_indexOf_first _ _ _ He).
  destruct (JS.split JS.LF blockContent) as [|line0 rest] eqn:Hl; [discriminate|].
  simpl in Hhd. injection Hhd as ->.
  destruct (Z.eqb_spec (Z.of_nat s) (-1)); [lia|].
  destruct (Z.eqb_spec (Z.of_nat d) (-1)); [lia|].
  destruct (Z.eqb_spec (Z.of_nat e) (-1)); [lia|].
  reflexivity.
Qed.

(** ** C4 *)

(** C4. For a well-formed block, in which the three marker lines are
    present, at first indices [s < d < e] of the lines of the input,
    [parseEditBlock] returns the trimmed first line as path, the
    newline-join of the lines strictly between [s] and [d] as search text
    and the newline-join of the lines strictly between [d] and [e] as
    replace text, whatever the number of lines of each section. *)
Theorem parseEditBlock_wellformed (blockContent : string) (s d e : nat) :
  FirstIndex (JS.split JS.LF blockContent) SEARCH_MARKER s ->
  FirstIndex (JS.split JS.LF blockContent) DIVIDER_MARKER d ->
  FirstIndex (JS.split JS.LF blockContent) REPLACE_MARKER e ->
  (s < d)%nat -> (d < e)%nat ->
  parseEditBlock blockContent
  = Returned (mkEditBlock
      (JS.trim (firstLine blockContent))
      (mkSearchReplace
         (JS.join JS.nl (linesBetween (JS.split JS.LF blockContent) s d))
         (JS.join JS.nl (linesBetween (JS.split JS.LF blockContent) d e)))).
Proof.
  intros Hs Hd He _ _.
  pose proof (FirstIndex_lt _ _ _ Hs) as Ls.
  pose proof (FirstIndex_lt _ _ _ Hd) as Ld.
  pose proof (FirstIndex_lt _ _ _ He) as Le.
  rewrite (parseEditBlock_run blockContent s d e Hs Hd He).
  rewrite !slice_linesBetween by assumption.
  reflexivity.
Qed.

Lemma parseEditBlock_wellformed_witness :
  parseEditBlock scenario3
  = Returned (mkEditBlock "test-file.txt" (mkSearchReplace "original content" "new content")).
Proof.
  assert (FirstIndex (JS.split JS.LF scenario3) SEARCH_MARKER 1) as Hs.
  { split; [reflexivity|]. intros [|j] Hj; [vm_compute; discriminate|lia]. }
  assert (FirstIndex (JS.split JS.LF scenario3) DIVIDER_MARKER 3) as Hd.
  { split; [reflexivity|].
    intros j Hj. do 3 (destruct j as [|j]; [vm_compute; discriminate|]). lia. }
  assert (FirstIndex (JS.split JS.LF scenario3) REPLACE_MARKER 5) as He.
  { split; [reflexivity|].
    intros j Hj. do 5 (destruct j as [|j]; [vm_compute; discriminate|]). lia. }
  exact (parseEditBlock_wellformed scenario3 1 3 5 Hs Hd He ltac:(lia) ltac:(lia)).
Defined.

(** A block in the wire format parses to its parts: the path, whatever
    the number of lines of the search and of the replace text. *)
Lemma parseEditBlock_render (path : string) (searchLines replaceLines : list string) :
  lineFree path = true ->
  Forall (fun x => lineFree x = true) searchLines ->
  Forall (fun x => lineFree x = true) replaceLines ->
  isMarker path = false ->
  DIVIDER_MARKER ∉ searchLines ->
  REPLACE_MARKER ∉ searchLines ->
  REPLACE_MARKER ∉ replaceLines ->
  parseEditBlock (renderBlock path searchLines replaceLines)
  = Returned (mkEditBlock (JS.trim path)
      (mkSearchReplace (JS.join JS.nl searchLines) (JS.join JS.nl replaceLines))).
Proof.
  intros Hpath HS HR Hmark HdS HrS HrR.
  unfold isMarker in Hmark.
  apply orb_false_iff in Hmark as [Hmark Hp3].
  apply orb_false_iff in Hmark as [Hp1 Hp2].
  apply bool_decide_eq_false in Hp1, Hp2, Hp3.
  unfold parseEditBlock, renderBlock.
  rewrite split_join.
  2: discriminate.
  2: { constructor; [exact Hpath|]. constructor; [reflexivity|].
       apply Forall_app. split; [exact HS|]. constructor; [reflexivity|].
       apply Forall_app. split; [exact HR|]. repeat constructor. }
  set (SL := searchLines). set (RL := replaceLines).
  assert (JS.arr_indexOf (path :: SEARCH_MARKER :: SL ++ DIVIDER_MARKER :: RL ++ [REPLACE_MARKER])
            SEARCH_MARKER = 1) as ->.
  { apply (arr_indexOf_app [path]). apply not_elem_of_cons. split; [congruence|].
    apply not_elem_of_nil. }
  assert (JS.arr_indexOf (path :: SEARCH_MARKER :: SL ++ DIVIDER_MARKER :: RL ++ [REPLACE_MARKER])
            DIVIDER_MARKER = Z.of_nat (2 + length SL)) as ->.
  { apply (arr_indexOf_app (path :: SEARCH_MARKER :: SL)).
    rewrite !not_elem_of_cons. split; [congruence|]. split; [discriminate|exact HdS]. }
  assert (JS.arr_indexOf (path :: SEARCH_MARKER :: SL ++ DIVIDER_MARKER :: RL ++ [REPLACE_MARKER])
            REPLACE_MARKER = Z.of_nat (3 + length SL + length RL)) as ->.
  { replace (path :: SEARCH_MARKER :: SL ++ DIVIDER_MARKER :: RL ++ [REPLACE_MARKER])
      with ((path :: SEARCH_MARKER :: SL ++ DIVIDER_MARKER :: RL) ++ REPLACE_MARKER :: [])
      by (simpl; rewrite <- app_assoc; reflexivity).
    rewrite arr_indexOf_app.
    - simpl. rewrite length_app. simpl. f_equal. lia.
    - rewrite !not_elem_of_cons, not_elem_of_app, not_elem_of_cons.
      split; [congruence|]. split; [discriminate|]. split; [exact HrS|].
      split; [discriminate|exact HrR]. }
  destruct (Z.eqb_spec 1 (-1)); [lia|].
  destruct (Z.eqb_spec (Z.of_nat (2 + length SL)) (-1)); [lia|].
  destruct (Z.eqb_spec (Z.of_nat (3 + length SL + length RL)) (-1)); [lia|].
  cbn [orb]. f_equal. f_equal. f_equal.
  - f_equal. unfold JS.slice.
    change (1 + 1) with (Z.of_nat 2). rewrite !relIndex_nat.
    simpl length. rewrite !length_app. simpl length. rewrite length_app. simpl length.
    rewrite (Nat.min_l 2), (Nat.min_l (2 + length SL)) by lia.
    simpl drop. replace (2 + length SL - 2)%nat with (length SL) by lia.
    apply take_app_length.
  - f_equal. unfold JS.slice.
    replace (Z.of_nat (2 + length SL) + 1) with (Z.of_nat (3 + length SL)) by lia.
    rewrite !relIndex_nat.
    simpl length. rewrite !length_app. simpl length. rewrite length_app. simpl length.
    rewrite (Nat.min_l (3 + length SL)), (Nat.min_l (3 + length SL + length RL)) by lia.
    replace (3 + length SL + length RL - (3 + length SL))%nat with (length RL) by lia.
    change (3 + length SL)%nat with (S (S (S (length SL)))).
    simpl drop.
    replace (SL ++ DIVIDER_MARKER :: RL ++ [REPLACE_MARKER])
      with ((SL ++ [DIVIDER_MARKER]) ++ RL ++ [REPLACE_MARKER])
      by (rewrite <- app_assoc; reflexivity).
    rewrite drop_app_length' by (rewrite length_app; simpl; lia).
    apply take_app_length.
Qed.

(** ** C5 *)

(** The part of C5 the code honours: a block that lacks one of the three
    marker lines is rejected with the format error, and nothing is
    returned. *)
Lemma parseEditBlock_missing_marker (blockContent : string) :
  SEARCH_MARKER ∉ JS.split JS.LF blockContent \/
  DIVIDER_MARKER ∉ JS.split JS.LF blockContent \/
  REPLACE_MARKER ∉ JS.split JS.LF blockContent ->
  parseEditBlock blockContent = Thrown formatError.
Proof.
  intros H. unfold parseEditBlock.
  destruct (JS.split JS.LF blockContent) as [|line0 rest] eqn:Hl.
  { exfalso. eapply split_nonempty, Hl. }
  destruct H as [H|[H|H]]; apply arr_indexOf_absent in H; rewrite H; simpl.
  - reflexivity.
  - rewrite orb_true_r. reflexivity.
  - rewrite orb_true_r. reflexivity.
Qed.

(** C5, at the failing input.  The three markers of [misorderedBlock] are
    present but the divider precedes the opening marker; [parseEditBlock]
    does not fail: it returns an empty search text and a replace text that
    swallows the opening marker. *)
Theorem parseEditBlock_misordered_returns :
  parseEditBlock misorderedBlock
  = Returned (mkEditBlock "test-file.txt"
      (mkSearchReplace ""
         ("new content" +:+ JS.nl +:+ "<<<<<<< SEARCH" +:+ JS.nl +:+ "original content"))).
Proof. vm_compute. reflexivity. Qed.

(* ===================================================================== *)
(** * Control flow: what each construct adds to the trace                 *)
(* ===================================================================== *)

Section ControlFlow.
Context {sys : Sys}.

Lemma Emits_ret {A} P (a : A) : Emits P (ret a).
Proof. intros st r st' [= <- <-]. exists []. rewrite app_nil_r. split; reflexivity. Qed.

Lemma Emits_throw {A} P e : Emits P (@throw sys A e).
Proof. intros st r st' [= <- <-]. exists []. rewrite app_nil_r. split; reflexivity. Qed.

Lemma Emits_prim {A} (P : Event -> bool) ev (op : world -> Outcome A * world) :
  P ev = true -> Emits P (prim ev op).
Proof.
  intros HP st r st' [= <- <-]. exists [ev]. simpl. rewrite HP. split; reflexivity.
Qed.

Lemma Emits_emit (P : Event -> bool) ev : P ev = true -> Emits P (emit ev).
Proof.
  intros HP st r st' [= <- <-]. exists [ev]. simpl. rewrite HP. split; reflexivity.
Qed.

Lemma Emits_now P : Emits P now.
Proof. intros st r st' [= <- <-]. exists []. simpl. rewrite app_nil_r. split; reflexivity. Qed.

Lemma Emits_bind {A B} P (m : M A) (k : A -> M B) :
  Emits P m -> (forall a, Emits P (k a)) -> Emits P (bind m k).
Proof.
  intros Hm Hk st r st'. unfold bind.
  destruct (m st) as [[a|e] st1] eqn:E1; intros E2.
  - destruct (Hm _ _ _ E1) as (evs1 & T1 & F1).
    destruct (Hk a _ _ _ E2) as (evs2 & T2 & F2).
    exists (evs1 ++ evs2). rewrite T2, T1, app_assoc, forallb_app, F1, F2. split; reflexivity.
  - injection E2 as <- <-. eapply Hm, E1.
Qed.

Lemma Emits_try_catch {A} P (m : M A) (h : JsError -> M A) :
  Emits P m -> (forall e, Emits P (h e)) -> Emits P (try_catch m h).
Proof.
  intros Hm Hh st r st'. unfold try_catch.
  destruct (m st) as [[a|e] st1] eqn:E1; intros E2.
  - injection E2 as <- <-. eapply Hm, E1.
  - destruct (Hm _ _ _ E1) as (evs1 & T1 & F1).
    destruct (Hh e _ _ _ E2) as (evs2 & T2 & F2).
    exists (evs1 ++ evs2). rewrite T2, T1, app_assoc, forallb_app, F1, F2. split; reflexivity.
Qed.

Lemma Emits_try_finally {A} P (m : M A) (f : M unit) :
  Emits P m -> Emits P f -> Emits P (try_finally m f).
Proof.
  intros Hm Hf st r st'. unfold try_finally.
  destruct (m st) as [r1 st1] eqn:E1.
  destruct (f st1) as [[u|e] st2] eqn:E2; intros [= <- <-];
    destruct (Hm _ _ _ E1) as (evs1 & T1 & F1);
    destruct (Hf _ _ _ E2) as (evs2 & T2 & F2);
    exists (evs1 ++ evs2); rewrite T2, T1, app_assoc, forallb_app, F1, F2; split; reflexivity.
Qed.

Lemma Emits_if {A} P (c : bool) (m1 m2 : M A) :
  Emits P m1 -> Emits P m2 -> Emits P (if c then m1 else m2).
Proof. destruct c; auto. Qed.

Lemma newEvents_app (st st' : State) evs :
  trace st' = trace st ++ evs -> newEvents st st' = evs.
Proof. intros H. unfold newEvents. rewrite H, drop_app_length. reflexivity. Qed.

(** The in-memory engine calls nothing but [readFile] and [writeFile]. *)
Lemma simpleInMemoryReplace_emits filePath block :
  Emits isInMemoryEvent (simpleInMemoryReplace filePath block).
Proof.
  unfold simpleInMemoryReplace.
  apply Emits_bind; [apply Emits_prim; reflexivity|intros content].
  apply Emits_if; [apply Emits_throw|].
  destruct (decide _); [apply Emits_prim; reflexivity|apply Emits_ret].
Qed.

(** It calls [readFile] once, first, and [writeFile] at most once. *)
Lemma simpleInMemoryReplace_trace filePath block st r st' :
  simpleInMemoryReplace filePath block st = (r, st') ->
  trace st' = trace st ++ [EvReadFile filePath] \/
  exists data, trace st' = trace st ++ [EvReadFile filePath; EvWriteFile filePath data].
Proof.
  unfold simpleInMemoryReplace, bind, prim.
  destruct (readFile filePath (env st)) as [[content|e] w1]; simpl.
  - destruct (_ =? -1).
    + intros [= <- <-]. left. reflexivity.
    + destruct (decide _).
      * intros [= <- <-]. right. eexists. simpl. rewrite <- app_assoc. reflexivity.
      * intros [= <- <-]. left. reflexivity.
  - intros [= <- <-]. left. reflexivity.
Qed.

Lemma applyPatch_emits filePath patchFile :
  Emits isDiffPatchEvent (applyPatch filePath patchFile).
Proof.
  unfold applyPatch.
  apply Emits_try_catch.
  - apply Emits_bind; [apply Emits_prim; reflexivity|intros; apply Emits_ret].
  - intros e. apply Emits_try_catch.
    + apply Emits_bind; [apply Emits_prim; reflexivity|intros; apply Emits_ret].
    + intros e'. apply Emits_throw.
Qed.

Lemma gitBasedReplace_try_emits filePath block tempDir tempFilePath :
  Emits isDiffPatchEvent (gitBasedReplace_try filePath block tempDir tempFilePath).
Proof.
  unfold gitBasedReplace_try.
  repeat (apply Emits_bind; [apply Emits_prim; reflexivity|intros ?]).
  apply Emits_if; [apply Emits_throw|].
  repeat (apply Emits_bind; [apply Emits_prim; reflexivity|intros ?]).
  apply Emits_bind; [apply applyPatch_emits|intros ?; apply Emits_ret].
Qed.

Lemma gitBasedReplace_cleanup_emits tempDir :
  Emits isDiffPatchEvent (gitBasedReplace_cleanup tempDir).
Proof.
  unfold gitBasedReplace_cleanup.
  apply Emits_try_catch; [apply Emits_prim; reflexivity|].
  intros e. apply Emits_emit. reflexivity.
Qed.

(** The diff/patch engine never calls [readFile], [writeFile] or [stat]. *)
Lemma gitBasedReplace_emits filePath block :
  Emits isDiffPatchEvent (gitBasedReplace filePath block).
Proof.
  unfold gitBasedReplace.
  apply Emits_bind; [apply Emits_now|intros t].
  apply Emits_try_finally;
    [apply gitBasedReplace_try_emits|apply gitBasedReplace_cleanup_emits].
Qed.

(** The cleanup never throws, whatever [rm] answers. *)
Lemma gitBasedReplace_cleanup_run tempDir st :
  gitBasedReplace_cleanup tempDir st
  = (Returned tt,
     mkState (fs_rm tempDir (env st)).2
       (trace st ++ EvRm tempDir ::
          match (fs_rm tempDir (env st)).1 with
          | Returned _ => []
          | Thrown error =>
              [EvConsoleError ("Failed to clean up temp directory: "
                               +:+ errorToString error)]
          end)).
Proof.
  unfold gitBasedReplace_cleanup, try_catch, prim, emit.
  destruct (fs_rm tempDir (env st)) as [[[]|e] w']; simpl.
  - reflexivity.
  - rewrite <- app_assoc. reflexivity.
Qed.

End ControlFlow.

(* ===================================================================== *)
(** * The strategy selector and the cleanup, on every machine             *)
(* ===================================================================== *)

Section Selector.
Context {sys : Sys}.

Lemma performSearchReplace_try_small st filePath block size w1 :
  fs_stat filePath (env st) = (Returned size, w1) -> size < 1000000 ->
  performSearchReplace_try filePath block st
  = simpleInMemoryReplace filePath block (mkState w1 (trace st ++ [EvStat filePath])).
Proof.
  intros Hstat Hsize. unfold performSearchReplace_try, bind at 1, prim at 1.
  rewrite Hstat. simpl. destruct (Z.ltb_spec size 1000000); [reflexivity|lia].
Qed.

Lemma performSearchReplace_try_large st filePath block size w1 :
  fs_stat filePath (env st) = (Returned size, w1) -> 1000000 <= size ->
  performSearchReplace_try filePath block st
  = match gitBasedReplace filePath block (mkState w1 (trace st ++ [EvStat filePath])) with
    | (Returned u, st2) => (Returned u, st2)
    | (Thrown gitError, st2) =>
        simpleInMemoryReplace filePath block
          (mkState (env st2) (trace st2 ++ [warnFallback gitError]))
    end.
Proof.
  intros Hstat Hsize. unfold performSearchReplace_try, bind at 1, prim at 1.
  rewrite Hstat. simpl. destruct (Z.ltb_spec size 1000000); [lia|].
  unfold try_catch.
  destruct (gitBasedReplace filePath block _) as [[u|gitError] st2]; reflexivity.
Qed.

Lemma performSearchReplace_run st filePath block :
  performSearchReplace filePath block st
  = (match (performSearchReplace_try filePath block st).1 with
     | Returned u => Returned u
     | Thrown error => Thrown (wrapError error)
     end,
     (performSearchReplace_try filePath block st).2).
Proof.
  unfold performSearchReplace, try_catch.
  destruct (performSearchReplace_try filePath block st) as [[u|e] st']; reflexivity.
Qed.

(** ** C6 *)

(** C6. After a successful [stat]: below 1,000,000 bytes the selector runs
    the in-memory engine at once, and the run makes no call of the
    diff/patch engine; from 1,000,000 bytes on it runs the diff/patch engine
    first, and when that throws, whatever the error, it logs one warning
    and runs the in-memory engine once, from the state the failed attempt
    left; the outcome of that second run is the outcome of the selector's
    [try] block, and [readFile] has then been called exactly once.  The outer
    handler only rewrites the message of the error that comes out. *)
Theorem performSearchReplace_dispatch (st : State) filePath block size w1 :
  fs_stat filePath (env st) = (Returned size, w1) ->
  let st1 := mkState w1 (trace st ++ [EvStat filePath]) in
  let git := gitBasedReplace filePath block st1 in
  let final := performSearchReplace filePath block st in
  (size < 1000000 ->
     performSearchReplace_try filePath block st = simpleInMemoryReplace filePath block st1
     /\ forallb isInMemoryEvent (newEvents st1 final.2) = true)
  /\ (1000000 <= size ->
      forallb isDiffPatchEvent (newEvents st1 git.2) = true
      /\ match git.1 with
         | Returned _ => performSearchReplace_try filePath block st = (Returned tt, git.2)
         | Thrown gitError =>
             let st2 := mkState (env git.2) (trace git.2 ++ [warnFallback gitError]) in
             performSearchReplace_try filePath block st
             = simpleInMemoryReplace filePath block st2
             /\ (newEvents st2 final.2 = [EvReadFile filePath] \/
                 exists data,
                   newEvents st2 final.2
                   = [EvReadFile filePath; EvWriteFile filePath data])
         end)
  /\ final = (match (performSearchReplace_try filePath block st).1 with
              | Returned u => Returned u
              | Thrown error => Thrown (wrapError error)
              end,
              (performSearchReplace_try filePath block st).2).
Proof.
  intros Hstat st1 git final. split; [|split].
  - intros Hsize.
    pose proof (performSearchReplace_try_small _ _ block _ _ Hstat Hsize) as Htry.
    split; [exact Htry|].
    subst final. rewrite performSearchReplace_run, Htry. simpl. fold st1.
    destruct (simpleInMemoryReplace filePath block st1) as [r st'] eqn:E.
    destruct (simpleInMemoryReplace_emits _ _ _ _ _ E) as (evs & T & F).
    simpl. rewrite (newEvents_app _ _ _ T). exact F.
  - intros Hsize.
    pose proof (performSearchReplace_try_large _ _ block _ _ Hstat Hsize) as Htry.
    fold st1 in Htry. fold git in Htry.
    destruct git as [rg sg] eqn:Eg. simpl.
    destruct (gitBasedReplace_emits _ _ _ _ _ Eg) as (evs & T & F).
    split; [rewrite (newEvents_app _ _ _ T); exact F|].
    destruct rg as [[]|gitError]; [exact Htry|].
    split; [exact Htry|].
    subst final. rewrite performSearchReplace_run, Htry. simpl.
    destruct (simpleInMemoryReplace filePath block _) as [r st'] eqn:E. simpl.
    destruct (simpleInMemoryReplace_trace _ _ _ _ _ E) as [T'|[data T']].
    + left. apply newEvents_app. exact T'.
    + right. exists data. apply newEvents_app. exact T'.
  - apply performSearchReplace_run.
Qed.

(** ** C7 *)

(** C7, amended.  Below 1,000,000 bytes, when the in-memory engine throws
    [e], [performSearchReplace] throws a new error whose message is the
    message of [e] behind the prefix "Failed to perform search/replace: ",
    and changes nothing else. *)
Theorem performSearchReplace_small_error_wrapped
    (st : State) filePath block size w1 (e : JsError) (st2 : State) :
  fs_stat filePath (env st) = (Returned size, w1) ->
  size < 1000000 ->
  simpleInMemoryReplace filePath block (mkState w1 (trace st ++ [EvStat filePath]))
  = (Thrown e, st2) ->
  performSearchReplace filePath block st
  = (Thrown (mkError ("Failed to perform search/replace: " +:+ message e)), st2).
Proof.
  intros Hstat Hsize Hmem.
  rewrite performSearchReplace_run.
  rewrite (performSearchReplace_try_small _ _ _ _ _ Hstat Hsize), Hmem.
  reflexivity.
Qed.

(** The engine is its [try] block followed by the cleanup. *)
Lemma gitBasedReplace_run (st : State) filePath block :
  let st0 := mkState (date_now (env st)).2 (trace st) in
  let tempDir := tempDirAt (date_now (env st)).1 in
  let body :=
    gitBasedReplace_try filePath block tempDir (tempFilePathIn tempDir filePath) st0 in
  gitBasedReplace filePath block st
  = (body.1,
     mkState (fs_rm tempDir (env body.2)).2
       (trace body.2 ++ EvRm tempDir ::
          match (fs_rm tempDir (env body.2)).1 with
          | Returned _ => []
          | Thrown error =>
              [EvConsoleError ("Failed to clean up temp directory: "
                               +:+ errorToString error)]
          end)).
Proof.
  intros st0 tempDir body.
  unfold gitBasedReplace, bind, now, try_finally. simpl.
  fold st0 tempDir. fold body.
  destruct body as [r sb] eqn:Eb.
  rewrite gitBasedReplace_cleanup_run. reflexivity.
Qed.

(** ** C8 *)

(** C8. Whatever the [try] block of [gitBasedReplace] does, and whether it
    returns or throws: the outcome of the engine is the outcome of the
    [try] block; the cleanup itself never throws; what the engine does
    after the [try] block is a call of [rm] on the workspace directory,
    followed by a line on the console when [rm] failed; and the machine
    is left as [rm] left it. *)
Theorem gitBasedReplace_cleanup_always (st : State) filePath block :
  let st0 := mkState (date_now (env st)).2 (trace st) in
  let tempDir := tempDirAt (date_now (env st)).1 in
  let body :=
    gitBasedReplace_try filePath block tempDir (tempFilePathIn tempDir filePath) st0 in
  let removal := fs_rm tempDir (env body.2) in
  let final := gitBasedReplace filePath block st in
  final.1 = body.1
  /\ (forall s, (gitBasedReplace_cleanup tempDir s).1 = Returned tt)
  /\ newEvents body.2 final.2
     = EvRm tempDir ::
         match removal.1 with
         | Returned _ => []
         | Thrown error =>
             [EvConsoleError ("Failed to clean up temp directory: "
                              +:+ errorToString error)]
         end
  /\ env final.2 = removal.2.
Proof.
  intros st0 tempDir body removal final.
  assert (forall s, (gitBasedReplace_cleanup tempDir s).1 = Returned tt) as Hclean
    by (intros s; rewrite gitBasedReplace_cleanup_run; reflexivity).
  subst final. unfold gitBasedReplace, bind, now, try_finally. simpl.
  fold st0 tempDir. fold body.
  destruct body as [r sb] eqn:Eb.
  rewrite gitBasedReplace_cleanup_run. cbn [fst snd env].
  split; [reflexivity|]. split; [exact Hclean|]. split; [|reflexivity].
  apply newEvents_app. reflexivity.
Qed.

End Selector.

(* ===================================================================== *)
(** * The in-memory engine on a reliable store                            *)
(* ===================================================================== *)

Section InMemoryEngine.
Context {sys : Sys}.
Variable content : world -> string -> option string.
Hypothesis RS : ReliableStore content.


Lemma simpleInMemoryReplace_found filePath block st c :
  content (env st) filePath = Some c ->
  JS.indexOf c (search block) <> -1 ->
  exists st',
    simpleInMemoryReplace filePath block st = (Returned tt, st')
    /\ content (env st') filePath = Some (spliced c (JS.indexOf c (search block)) block)
    /\ forall q, q <> filePath -> content (env st') q = content (env st) q.
Proof.
  intros Hc Hi. unfold simpleInMemoryReplace, bind, prim.
  rewrite (rs_readFile _ RS _ _ _ Hc).
  destruct (Z.eqb_spec (JS.indexOf c (search block)) (-1)) as [|_]; [contradiction|].
  set (w1 := (readFile filePath (env st)).2).
  assert (content w1 filePath = Some c) as Hc1
    by (unfold w1; rewrite (rs_readFile_frame _ RS); exact Hc).
  destruct (decide _) as [Hne|Heq].
  - destruct (rs_writeFile _ RS filePath (spliced c (JS.indexOf c (search block)) block)
                _ _ Hc1) as [Hw1 Hw2].
    simpl. rewrite Hw1. eexists. split; [reflexivity|]. simpl. split.
    + exact Hw2.
    + intros q Hq. rewrite (rs_writeFile_frame _ RS) by exact Hq.
      apply (rs_readFile_frame _ RS).
  - eexists. split; [reflexivity|]. simpl. fold w1. split.
    + rewrite Hc1. f_equal. symmetry. apply dec_stable in Heq. exact Heq.
    + intros q _. apply (rs_readFile_frame _ RS).
Qed.

End InMemoryEngine.

(* ===================================================================== *)
(** * The diff/patch engine when the search string is absent              *)
(* ===================================================================== *)

Section Workspace.
Context {sys : Sys}.
Variable content : world -> string -> option string.
Variables (p T : string) (block : SearchReplace) (c : string).
Hypothesis RS : ReliableStore content.
Hypothesis WC : WorkspaceContract content p T.





End Workspace.

(* ===================================================================== *)
(** * What an edit does to the file                                       *)
(* ===================================================================== *)

Section Edits.
Context {sys : Sys}.
Variable content : world -> string -> option string.
Hypothesis RS : ReliableStore content.

Lemma stat_run filePath st c :
  content (env st) filePath = Some c ->
  fs_stat filePath (env st) = (Returned (byteLength c), env (afterStat filePath st))
  /\ content (env (afterStat filePath st)) filePath = Some c.
Proof.
  intros Hc. unfold afterStat. cbn [env].
  pose proof (rs_stat _ RS _ _ _ Hc) as H1.
  pose proof (rs_stat_frame _ RS filePath (env st) filePath) as H2.
  destruct (fs_stat filePath (env st)) as [r w1]. simpl in *. subst r.
  split; [reflexivity|]. rewrite H2. exact Hc.
Qed.

Lemma found_split c s :
  IsSubstring s c ->
  JS.indexOf c s <> -1 /\
  forall repl,
  exists pre post,
    FirstOccurrence c s pre post /\
    spliced c (JS.indexOf c s) (mkSearchReplace s repl) = pre +:+ repl +:+ post.
Proof.
  intros Hsub. destruct (indexOf_present _ _ Hsub) as [i Hi]. split; [lia|].
  intros repl. exists (JS.str_take i c), (JS.str_drop (i + String.length s) c).
  split; [apply indexOf_found, Hi|].
  rewrite Hi. apply (spliced_eq c (mkSearchReplace s repl) i). exact Hi.
Qed.

(** ** C2 *)


(** ** C10 *)

(** C10. The empty string is found at index 0 of every content; on a
    reliable store the in-memory engine, given the empty search string,
    returns and leaves the replace string followed by the old content;
    and a block of the wire format whose search section has no line parses
    to the empty search string. *)
Theorem simpleInMemoryReplace_empty_search (st : State) filePath replaceText c :
  content (env st) filePath = Some c ->
  JS.indexOf c "" = 0
  /\ (exists st',
        simpleInMemoryReplace filePath (mkSearchReplace "" replaceText) st
        = (Returned tt, st')
        /\ content (env st') filePath = Some (replaceText +:+ c))
  /\ (forall path replaceLines,
        lineFree path = true -> isMarker path = false ->
        Forall (fun x => lineFree x = true) replaceLines ->
        REPLACE_MARKER ∉ replaceLines ->
        parseEditBlock (renderBlock path [] replaceLines)
        = Returned (mkEditBlock (JS.trim path)
            (mkSearchReplace "" (JS.join JS.nl replaceLines)))).
Proof.
  intros Hc. split; [apply indexOf_empty|]. split.
  - destruct (simpleInMemoryReplace_found content RS filePath
                (mkSearchReplace "" replaceText) st c Hc) as (st' & Hrun & Hcontent & _).
    { cbn [search]. rewrite indexOf_empty. lia. }
    exists st'. split; [exact Hrun|]. rewrite Hcontent. f_equal.
    cbn [search]. rewrite indexOf_empty.
    change 0 with (Z.of_nat 0).
    rewrite (spliced_eq c (mkSearchReplace "" replaceText) 0) by apply indexOf_empty.
    reflexivity.
  - intros path replaceLines Hpath Hmark HR HrR.
    apply (parseEditBlock_render path [] replaceLines); try assumption.
    + constructor.
    + apply not_elem_of_nil.
    + apply not_elem_of_nil.
Qed.

End Edits.

(* ===================================================================== *)
(** * The command lines of the diff/patch engine                          *)
(* ===================================================================== *)

Lemma shellWords_go_plain (u s cur : string) (started : bool) :
  plainWord u = true ->
  shellWords_go (u +:+ s) false cur started
  = shellWords_go s false (cur +:+ u)
      (started || negb (bool_decide (u = ""))).
Proof.
  revert cur started. induction u as [|ch u IH]; intros cur started Hu.
  - rewrite app_empty_l, app_empty_r, orb_false_r. reflexivity.
  - simpl in Hu. rewrite app_cons. simpl.
    destruct (decide (ch = "034"%char)); [discriminate|].
    destruct (decide (ch = " "%char)); [discriminate|].
    rewrite bool_decide_eq_false_2 by assumption. simpl.
    rewrite IH by exact Hu. rewrite app_assoc_str, orb_true_r. reflexivity.
Qed.

(** A plain word followed by a blank is one word of the command line. *)
Lemma shellWords_go_word (u s : string) :
  plainWord u = true -> u <> "" ->
  shellWords_go (u +:+ " " +:+ s) false "" false
  = u :: shellWords_go s false "" false.
Proof.
  intros Hu Hne. rewrite shellWords_go_plain by exact Hu.
  rewrite bool_decide_eq_false_2 by exact Hne. reflexivity.
Qed.


Section Commands.
Context {sys : Sys}.

Local Ltac exec_event :=
  apply Emits_prim; first [reflexivity | apply bool_decide_eq_true; set_solver].

Lemma gitBasedReplace_exec_events filePath block :
  forall st r st',
    gitBasedReplace filePath block st = (r, st') ->
    forallb (execFrom (engineCommands filePath (workspaceOf st))) (newEvents st st') = true.
Proof.
  intros st r st'. rewrite gitBasedReplace_run. fold (workspaceOf st).
  set (T := workspaceOf st). set (cmds := engineCommands filePath T).
  set (st0 := mkState _ _).
  destruct (gitBasedReplace_try filePath block T (tempFilePathIn T filePath) st0)
    as [rb sb] eqn:Eb.
  assert (Emits (execFrom cmds)
            (gitBasedReplace_try filePath block T (tempFilePathIn T filePath))) as Hbody.
  { unfold gitBasedReplace_try, gitBasedReplace_patch, applyPatch, cmds, engineCommands.
    repeat (apply Emits_bind; [exec_event|intros ?]).
    apply Emits_if; [apply Emits_throw|].
    repeat (apply Emits_bind; [exec_event|intros ?]).
    apply Emits_bind; [|intros ?; apply Emits_ret].
    apply Emits_try_catch.
    - apply Emits_bind; [exec_event|intros; apply Emits_ret].
    - intros e. apply Emits_try_catch.
      + apply Emits_bind; [exec_event|intros; apply Emits_ret].
      + intros e'. apply Emits_throw. }
  destruct (Hbody _ _ _ Eb) as (evs & Tb & Fb).
  cbn [fst snd]. intros [= <- <-].
  unfold newEvents. cbn [trace]. rewrite Tb. unfold st0. cbn [trace].
  rewrite <- app_assoc, drop_app_length, forallb_app, Fb. simpl.
  destruct (fs_rm T (env sb)).1; reflexivity.
Qed.

End Commands.


(* ===================================================================== *)
(** * The reference machine honours the contracts                         *)
(* ===================================================================== *)

Lemma ref_reliable : @ReliableStore Ref.machine RefContract.content.
Proof.
  unfold RefContract.content. split; simpl.
  - reflexivity.
  - intros p w q. unfold Ref.m_stat. destruct (Ref.files w !! p); reflexivity.
  - intros p w c Hc. unfold Ref.m_stat. rewrite Hc. reflexivity.
  - intros p w q. unfold Ref.m_readFile. destruct (Ref.files w !! p); reflexivity.
  - intros p w c Hc. unfold Ref.m_readFile. rewrite Hc. reflexivity.
  - intros p x w q Hq. apply lookup_insert_ne. congruence.
  - intros p x w c _. split; [reflexivity|]. apply lookup_insert_eq.
  - reflexivity.
  - intros src dst w q Hq. unfold Ref.m_copyFile.
    destruct (Ref.files w !! src); simpl; [|reflexivity].
    apply lookup_insert_ne. congruence.
  - intros src dst w u. unfold Ref.m_copyFile.
    destruct (Ref.files w !! src) eqn:E; simpl; [|discriminate].
    intros _. apply lookup_insert_eq.
  - intros p w q. unfold Ref.m_readFile. destruct (Ref.files w !! p); reflexivity.
  - intros p w x. unfold Ref.m_readFile.
    destruct (Ref.files w !! p) eqn:E; simpl; congruence.
  - intros p x w q Hq. apply lookup_insert_ne. congruence.
  - intros p x w u _. apply lookup_insert_eq.
Qed.

(** ** Patches of the reference machine *)









(** ** The shell of the reference machine *)

Lemma runCmd_files c cwd w :
  isApply (Some c) = false -> Ref.files (Ref.runCmd c cwd w).2 = Ref.files w.
Proof.
  destruct c; simpl; try discriminate; intros _.
  - destruct (decide _); reflexivity.
  - destruct (Ref.repos w !! cwd); reflexivity.
  - destruct (Ref.repos w !! cwd); reflexivity.
  - destruct (Ref.repos w !! cwd), (Ref.files w !! Ref.resolve cwd name); reflexivity.
  - destruct (Ref.repos w !! cwd) as [r|]; [|reflexivity].
    destruct (Ref.index r); [|reflexivity]. destruct (decide _); reflexivity.
  - destruct (Ref.repos w !! cwd) as [r|]; [|reflexivity].
    destruct (Ref.index r) as [[n o]|]; [|reflexivity].
    destruct (Ref.files w !! Ref.resolve cwd n); [|reflexivity].
    destruct (decide _); reflexivity.
Qed.

Lemma runAll_files cs cwd out w :
  forallb (fun c => negb (isApply c)) cs = true ->
  Ref.files (Ref.runAll cs cwd out w).2 = Ref.files w.
Proof.
  revert cwd out w. induction cs as [|[c|] cs IH]; intros cwd out w H; simpl in *.
  - reflexivity.
  - apply andb_true_iff in H as [Hc Hcs]. apply negb_true_iff in Hc.
    pose proof (runCmd_files c cwd w Hc) as Hf.
    destruct (Ref.runCmd c cwd w) as [[[o|e] cwd'] w']; simpl in *.
    + rewrite IH by exact Hcs. exact Hf.
    + exact Hf.
  - reflexivity.
Qed.

Lemma m_exec_files commandLine w :
  forallb (fun c => negb (isApply c)) (Ref.commands commandLine) = true ->
  Ref.files (Ref.m_exec commandLine w).2 = Ref.files w.
Proof.
  intros H. unfold Ref.m_exec.
  pose proof (runAll_files _ "/" "" w H) as Hf.
  destruct (Ref.runAll _ _ _ _) as [[o|e] w']; exact Hf.
Qed.

Lemma m_rm_outside d w q :
  Ref.under d q = false ->
  RefContract.content (Ref.m_rm d w).2 q = RefContract.content w q.
Proof.
  intros Hq. unfold RefContract.content. simpl.
  rewrite map_lookup_filter. destruct (Ref.files w !! q) as [x|]; [|reflexivity].
  simpl. rewrite option_guard_True by exact Hq. reflexivity.
Qed.

(** ** The command lines of [workFile] on the reference machine *)

Lemma commands_init :
  Ref.commands (initCmd workspace1)
  = [Some (Ref.Cd workspace1); Some Ref.GitInit;
     Some (Ref.GitConfig "user.email" "temp@example.com");
     Some (Ref.GitConfig "user.name" "Temp User")].
Proof. vm_compute. reflexivity. Qed.

Lemma commands_commit :
  Ref.commands (commitCmd workspace1 "a.txt")
  = [Some (Ref.Cd workspace1); Some (Ref.GitAdd "a.txt");
     Some (Ref.GitCommit "Original file")].
Proof. vm_compute. reflexivity. Qed.


Lemma commands_apply (threeWay : bool) :
  Ref.commands (if threeWay then apply3wayCmd "/tmp/work" patch1
                else applyCmd "/tmp/work" patch1)
  = [Some (Ref.Cd "/tmp/work"); Some (Ref.GitApply threeWay patch1)].
Proof. destruct threeWay; vm_compute; reflexivity. Qed.


(** The workspace is apart from the file in the directory with a blank,
    too: the command lines that name that directory come later. *)
Lemma ref_workspace_contract_blank :
  @WorkspaceContract Ref.machine RefContract.content blankFile workspace1.
Proof.
  split.
  - vm_compute. discriminate.
  - intros w. apply m_rm_outside. vm_compute. reflexivity.
  - intros w q _. unfold RefContract.content. simpl exec.
    rewrite m_exec_files; [reflexivity|]. rewrite commands_init. reflexivity.
  - intros w q _. unfold RefContract.content.
    change (@path_basename Ref.machine blankFile) with "a.txt". simpl exec.
    rewrite m_exec_files; [reflexivity|]. rewrite commands_commit. reflexivity.
Qed.

(* ===================================================================== *)
(** * Runs on the reference machine                                       *)
(* ===================================================================== *)


(** ** The two engines on [workFile] *)

(** On the reference machine the diff/patch engine does return on
    [workFile], with the content of scenario 1 of the specification. *)
Example gitBasedReplace_workFile :
  (@gitBasedReplace Ref.machine workFile block1 workState).1 = Returned tt
  /\ RefContract.content
       (env (@gitBasedReplace Ref.machine workFile block1 workState).2) workFile
     = Some "This is a test file with new content that will be replaced.".
Proof. vm_compute. split; reflexivity. Qed.

(** The file [/tmp/my dir/a.txt] holds the text of scenario 1, in which
    the search string occurs once and no other file is near.  Started in the same
    state, the diff/patch engine throws and leaves the file as it was,
    because [cd] is handed [/tmp/my], while the in-memory engine replaces
    the occurrence. *)
Lemma engines_disagree_blank_directory :
  RefContract.content (env blankState) blankFile = Some scenario1
  /\ occurrences scenario1 (search block1) = 1%nat
  /\ RefContract.content
       (env (@gitBasedReplace Ref.machine blankFile block1 blankState).2) blankFile
     = Some scenario1
  /\ RefContract.content
       (env (@simpleInMemoryReplace Ref.machine blankFile block1 blankState).2) blankFile
     = Some "This is a test file with new content that will be replaced."
  /\ RefContract.content
       (env (@gitBasedReplace Ref.machine blankFile block1 blankState).2) blankFile
     <> RefContract.content
          (env (@simpleInMemoryReplace Ref.machine blankFile block1 blankState).2) blankFile.
Proof. vm_compute. repeat split; discriminate. Qed.

(** ** C6 *)
Lemma performSearchReplace_dispatch_witness :
  @performSearchReplace_try Ref.machine workFile block1 workState
  = @simpleInMemoryReplace Ref.machine workFile block1
      (mkState (env workState) (trace workState ++ [EvStat workFile])).
Proof.
  exact (proj1 (proj1 (@performSearchReplace_dispatch Ref.machine workState workFile block1
                         64 (env workState) eq_refl)
                  ltac:(lia))).
Defined.

(** ** C7 *)
Lemma performSearchReplace_small_error_wrapped_witness :
  @performSearchReplace Ref.machine workFile blockAbsent workState
  = (Thrown (mkError ("Failed to perform search/replace: "
                      +:+ message (notFoundError workFile))),
     (@simpleInMemoryReplace Ref.machine workFile blockAbsent
        (mkState (env workState) (trace workState ++ [EvStat workFile]))).2).
Proof.
  refine (@performSearchReplace_small_error_wrapped Ref.machine workState workFile
            blockAbsent 64 (env workState) (notFoundError workFile) _ eq_refl _ _).
  - lia.
  - vm_compute. reflexivity.
Defined.

(** C7, as stated, fails.  The file of [workState] has 64 bytes and does
    not contain [zzz]: the in-memory engine throws "Search content not
    found in /tmp/work/a.txt", and the caller of [performSearchReplace]
    observes another error, with the prefix of the outer handler. *)
Lemma small_error_is_rewritten :
  @fs_stat Ref.machine workFile (env workState) = (Returned 64, env workState)
  /\ 64 < 1000000
  /\ (@simpleInMemoryReplace Ref.machine workFile blockAbsent
        (afterStat workFile workState)).1
     = Thrown (mkError "Search content not found in /tmp/work/a.txt")
  /\ (@performSearchReplace Ref.machine workFile blockAbsent workState).1
     = Thrown (mkError
         "Failed to perform search/replace: Search content not found in /tmp/work/a.txt")
  /\ (@performSearchReplace Ref.machine workFile blockAbsent workState).1
     <> (@simpleInMemoryReplace Ref.machine workFile blockAbsent
           (afterStat workFile workState)).1.
Proof. vm_compute. repeat split; discriminate. Qed.

(** ** C10 *)
Lemma simpleInMemoryReplace_empty_search_witness :
  JS.indexOf scenario1 "" = 0
  /\ (exists st',
        @simpleInMemoryReplace Ref.machine workFile (mkSearchReplace "" "PREFIX ") workState
        = (Returned tt, st')
        /\ RefContract.content (env st') workFile = Some ("PREFIX " +:+ scenario1))
  /\ (forall path replaceLines,
        lineFree path = true -> isMarker path = false ->
        Forall (fun x => lineFree x = true) replaceLines ->
        REPLACE_MARKER ∉ replaceLines ->
        parseEditBlock (renderBlock path [] replaceLines)
        = Returned (mkEditBlock (JS.trim path)
            (mkSearchReplace "" (JS.join JS.nl replaceLines)))).
Proof.
  refine (@simpleInMemoryReplace_empty_search Ref.machine RefContract.content
            ref_reliable workState workFile "PREFIX " scenario1 _).
  vm_compute. reflexivity.
Defined.


(* ===================================================================== *)
(** * Further properties of [parseEditBlock]                              *)
(* ===================================================================== *)

Local Ltac not_in_list :=
  vm_compute; let H := fresh in intros H;
  repeat (apply elem_of_cons in H as [H|H]; [discriminate|]);
  apply elem_of_nil in H; exact H.

Lemma join_app_nl (l1 l2 : list string) :
  l1 <> [] -> l2 <> [] ->
  JS.join JS.nl (l1 ++ l2) = JS.join JS.nl l1 +:+ JS.nl +:+ JS.join JS.nl l2.
Proof.
  intros H1 H2. induction l1 as [|x l1 IH]; [contradiction|].
  destruct l1 as [|y l1].
  - destruct l2 as [|z l2]; [contradiction|]. reflexivity.
  - change ((x :: y :: l1) ++ l2) with (x :: y :: (l1 ++ l2)).
    rewrite !join_cons2.
    change (y :: l1 ++ l2) with ((y :: l1) ++ l2).
    rewrite IH by discriminate. rewrite !app_assoc_str. reflexivity.
Qed.

Lemma join_cons_ne sep (x : string) (l : list string) :
  l <> [] -> JS.join sep (x :: l) = x +:+ sep +:+ JS.join sep l.
Proof. destruct l; [contradiction|reflexivity]. Qed.

(** The text of a block is the rendering of its lines. *)
Lemma blockText_render (path searchText replaceText : string) :
  blockText path searchText replaceText
  = renderBlock path (JS.split JS.LF searchText) (JS.split JS.LF replaceText).
Proof.
  unfold blockText, renderBlock.
  pose proof (split_nonempty JS.LF searchText) as Hs.
  pose proof (split_nonempty JS.LF replaceText) as Hr.
  rewrite join_cons2.
  rewrite (join_cons_ne _ SEARCH_MARKER)
    by (intros H; apply app_eq_nil in H as [H _]; contradiction).
  rewrite join_app_nl by (exact Hs || discriminate).
  rewrite (join_cons_ne _ DIVIDER_MARKER)
    by (intros H; apply app_eq_nil in H as [H _]; contradiction).
  rewrite join_app_nl by (exact Hr || discriminate).
  rewrite !join_split. simpl JS.join.
  rewrite ?app_assoc_str. reflexivity.
Qed.

(** ** X1 *)

(** X1. [parseEditBlock] has one way to fail.  The only error it throws
    is the format error; it throws it exactly when one of the three
    marker texts is not a whole line of the input, and it returns a block
    exactly when the three of them are lines of the input, in whatever
    order. *)
Theorem parseEditBlock_fails_iff (blockContent : string) :
  let lines := JS.split JS.LF blockContent in
  (forall e, parseEditBlock blockContent = Thrown e -> e = formatError)
  /\ ((exists b, parseEditBlock blockContent = Returned b)
      <-> SEARCH_MARKER ∈ lines /\ DIVIDER_MARKER ∈ lines /\ REPLACE_MARKER ∈ lines)
  /\ (parseEditBlock blockContent = Thrown formatError
      <-> (SEARCH_MARKER ∉ lines) \/ (DIVIDER_MARKER ∉ lines) \/ (REPLACE_MARKER ∉ lines)).
Proof.
  intros lines.
  destruct (decide (SEARCH_MARKER ∈ lines)) as [Hs|Hs];
    [destruct (decide (DIVIDER_MARKER ∈ lines)) as [Hd|Hd];
     [destruct (decide (REPLACE_MARKER ∈ lines)) as [Hr|Hr]|]|].
  - assert (exists b, parseEditBlock blockContent = Returned b) as [b Hb].
    { unfold parseEditBlock. fold lines.
      destruct lines as [|line0 rest] eqn:Hl; [apply elem_of_nil in Hs; contradiction|].
      destruct (Z.eqb_spec (JS.arr_indexOf (line0 :: rest) SEARCH_MARKER) (-1)) as [E|_];
        [apply arr_indexOf_absent in E; contradiction|].
      destruct (Z.eqb_spec (JS.arr_indexOf (line0 :: rest) DIVIDER_MARKER) (-1)) as [E|_];
        [apply arr_indexOf_absent in E; contradiction|].
      destruct (Z.eqb_spec (JS.arr_indexOf (line0 :: rest) REPLACE_MARKER) (-1)) as [E|_];
        [apply arr_indexOf_absent in E; contradiction|].
      eexists. reflexivity. }
    rewrite Hb. split; [discriminate|]. split.
    + split; [tauto|]. intros _. exists b. reflexivity.
    + split; [discriminate|]. tauto.
  - rewrite (parseEditBlock_missing_marker blockContent) by tauto.
    split; [congruence|]. split.
    + split; [intros [b Hb]; discriminate|tauto].
    + split; [tauto|reflexivity].
  - rewrite (parseEditBlock_missing_marker blockContent) by tauto.
    split; [congruence|]. split.
    + split; [intros [b Hb]; discriminate|tauto].
    + split; [tauto|reflexivity].
  - rewrite (parseEditBlock_missing_marker blockContent) by tauto.
    split; [congruence|]. split.
    + split; [intros [b Hb]; discriminate|tauto].
    + split; [tauto|reflexivity].
Qed.

(** ** X2 *)

(** X2. Round trip.  A block written as the docstring prescribes, from a
    one-line path that is not a marker, a search text and a replace text,
    parses back to the trimmed path and to the two texts exactly as they
    were written (blank lines, indentation and final line feeds
    included), provided that no line of the search text is the divider or
    the closing marker and no line of the replace text is the closing
    marker.  The opening marker may occur in both texts, and the divider
    in the replace text. *)
Theorem parseEditBlock_blockText (path searchText replaceText : string) :
  lineFree path = true ->
  isMarker path = false ->
  (DIVIDER_MARKER ∉ JS.split JS.LF searchText) ->
  (REPLACE_MARKER ∉ JS.split JS.LF searchText) ->
  (REPLACE_MARKER ∉ JS.split JS.LF replaceText) ->
  parseEditBlock (blockText path searchText replaceText)
  = Returned (mkEditBlock (JS.trim path) (mkSearchReplace searchText replaceText)).
Proof.
  intros Hp Hm HdS HrS HrR. rewrite blockText_render.
  rewrite parseEditBlock_render; try assumption; try apply lineFree_split.
  rewrite !join_split. reflexivity.
Qed.

Lemma parseEditBlock_blockText_witness :
  parseEditBlock
    (blockText "  /home/user/notes.txt "
       ("alpha" +:+ JS.nl +:+ "<<<<<<< SEARCH" +:+ JS.nl)
       ("=======" +:+ JS.nl +:+ "beta"))
  = Returned (mkEditBlock "/home/user/notes.txt"
      (mkSearchReplace ("alpha" +:+ JS.nl +:+ "<<<<<<< SEARCH" +:+ JS.nl)
         ("=======" +:+ JS.nl +:+ "beta"))).
Proof.
  refine (parseEditBlock_blockText _ _ _ _ _ _ _ _).
  - reflexivity.
  - reflexivity.
  - not_in_list.
  - not_in_list.
  - not_in_list.
Defined.

(** ** X3 *)

(** X3. A search text cannot hold a line that is the divider.  When the
    lines written between the opening marker and the intended divider
    hold a line [=======], the parser cuts the search text at that line:
    it returns the lines before it as search text, and the lines after
    it, the intended divider and the intended replace lines as replace
    text. *)
Theorem parseEditBlock_cut_at_first_divider
    (path : string) (before after replaceLines : list string) :
  lineFree path = true ->
  isMarker path = false ->
  Forall (fun x => lineFree x = true) (before ++ after ++ replaceLines) ->
  (DIVIDER_MARKER ∉ before) ->
  (REPLACE_MARKER ∉ before ++ after ++ replaceLines) ->
  parseEditBlock (renderBlock path (before ++ DIVIDER_MARKER :: after) replaceLines)
  = Returned (mkEditBlock (JS.trim path)
      (mkSearchReplace (JS.join JS.nl before)
         (JS.join JS.nl (after ++ DIVIDER_MARKER :: replaceLines)))).
Proof.
  intros Hp Hm Hall Hd Hr.
  apply Forall_app in Hall as [Hb Hall]. apply Forall_app in Hall as [Ha Hl].
  apply not_elem_of_app in Hr as [Hrb Hr]. apply not_elem_of_app in Hr as [Hra Hrl].
  assert (renderBlock path (before ++ DIVIDER_MARKER :: after) replaceLines
          = renderBlock path before (after ++ DIVIDER_MARKER :: replaceLines)) as ->.
  { unfold renderBlock. do 3 f_equal. rewrite <- !app_assoc. reflexivity. }
  apply parseEditBlock_render; try assumption.
  - apply Forall_app. split; [exact Ha|]. constructor; [reflexivity|exact Hl].
  - rewrite not_elem_of_app, not_elem_of_cons.
    split; [exact Hra|]. split; [discriminate|exact Hrl].
Qed.

Lemma parseEditBlock_cut_at_first_divider_witness :
  parseEditBlock
    (renderBlock "/home/user/README.md" (["Title"] ++ DIVIDER_MARKER :: ["old text"]) ["new text"])
  = Returned (mkEditBlock "/home/user/README.md"
      (mkSearchReplace "Title" ("old text" +:+ JS.nl +:+ "=======" +:+ JS.nl +:+ "new text"))).
Proof.
  refine (parseEditBlock_cut_at_first_divider "/home/user/README.md" ["Title"] ["old text"]
            ["new text"] _ _ _ _ _).
  - reflexivity.
  - reflexivity.
  - repeat constructor.
  - not_in_list.
  - not_in_list.
Defined.

(** ** X4 *)

Lemma lastChar_app (x : string) (c : ascii) : lastChar (x +:+ String c "") = Some c.
Proof.
  induction x as [|a x IH]; [reflexivity|].
  rewrite app_cons. simpl. rewrite IH.
  destruct (x +:+ String c "") eqn:E; [|reflexivity].
  destruct x; discriminate.
Qed.

Lemma lineFree_cr (x : string) : lineFree x = true -> lineFree (x +:+ String CR "") = true.
Proof. intros H. rewrite lineFree_app, H. reflexivity. Qed.

(** Of the lines of a text whose lines are joined by CR LF, as [split]
    sees them, every one but the last ends with a carriage return. *)
Lemma split_join_crlf (ls : list string) (m : string) :
  ls <> [] -> Forall (fun x => lineFree x = true) ls ->
  m ∈ JS.split JS.LF (JS.join crnl ls) ->
  last ls = Some m \/ lastChar m = Some CR.
Proof.
  induction ls as [|x ls IH]; intros Hne Hall Hm; [contradiction|].
  apply Forall_cons in Hall as [Hx Hl].
  destruct ls as [|y ls].
  - simpl in Hm. rewrite split_lineFree in Hm by exact Hx.
    apply elem_of_cons in Hm as [->|Hm];
      [left; reflexivity|apply elem_of_nil in Hm; contradiction].
  - rewrite join_cons2 in Hm. unfold crnl in Hm at 1.
    change (x +:+ String CR (String JS.LF "") +:+ ?r)
      with (x +:+ (String CR "" +:+ String JS.LF r)) in Hm.
    rewrite <- app_assoc_str in Hm.
    rewrite split_line in Hm by (apply lineFree_cr, Hx).
    apply elem_of_cons in Hm as [->|Hm].
    + right. apply lastChar_app.
    + destruct (IH ltac:(discriminate) Hl Hm) as [H|H]; [left|right]; exact H.
Qed.

(** X4. A block with CR LF line ends is always rejected.  Whatever the
    text, once each of its line feeds is preceded by a carriage return
    the parser throws the format error: it splits at the line feeds only
    and compares whole lines, so a marker followed by a carriage return
    is not a marker, and at most the last line has none. *)
Theorem parseEditBlock_crlf_rejected (blockContent : string) :
  parseEditBlock (toCRLF blockContent) = Thrown formatError.
Proof.
  apply parseEditBlock_missing_marker.
  destruct (decide (SEARCH_MARKER ∈ JS.split JS.LF (toCRLF blockContent))) as [Hs|Hs];
    [|left; exact Hs].
  right. left. intros Hd.
  pose proof (split_nonempty JS.LF blockContent) as Hne.
  pose proof (lineFree_split blockContent) as Hall.
  destruct (split_join_crlf _ _ Hne Hall Hs) as [Ls|Ls]; [|discriminate Ls].
  destruct (split_join_crlf _ _ Hne Hall Hd) as [Ld|Ld]; [|discriminate Ld].
  rewrite Ls in Ld. discriminate Ld.
Qed.

(** ** X5 *)

Lemma split_app_nl (b t : string) :
  JS.split JS.LF (b +:+ JS.nl +:+ t) = JS.split JS.LF b ++ JS.split JS.LF t.
Proof.
  induction b as [|c b IH].
  - rewrite app_empty_l. simpl. destruct (decide (JS.LF = JS.LF)); [reflexivity|congruence].
  - rewrite app_cons. simpl. rewrite IH.
    destruct (decide (c = JS.LF)); [reflexivity|].
    pose proof (split_nonempty JS.LF b) as Hne.
    destruct (JS.split JS.LF b) as [|l ls]; [contradiction|]. reflexivity.
Qed.

Lemma arr_indexOf_app_l (l1 l2 : list string) x :
  JS.arr_indexOf l1 x <> -1 -> JS.arr_indexOf (l1 ++ l2) x = JS.arr_indexOf l1 x.
Proof.
  induction l1 as [|y l1 IH]; simpl; [congruence|].
  destruct (decide (y = x)); [reflexivity|].
  destruct (Z.eqb_spec (JS.arr_indexOf l1 x) (-1)) as [E|E]; [congruence|].
  intros _. rewrite IH by exact E.
  destruct (Z.eqb_spec (JS.arr_indexOf l1 x) (-1)); [contradiction|reflexivity].
Qed.

Lemma slice_app_l {A} (l1 l2 : list A) (a b : Z) :
  0 <= a <= Z.of_nat (length l1) -> 0 <= b <= Z.of_nat (length l1) ->
  JS.slice (l1 ++ l2) a b = JS.slice l1 a b.
Proof.
  intros Ha Hb. unfold JS.slice, JS.relIndex. rewrite length_app.
  destruct (Z.ltb_spec a 0); [lia|]. destruct (Z.ltb_spec b 0); [lia|].
  replace (Z.to_nat (Z.min a (Z.of_nat (length l1 + length l2)))) with (Z.to_nat a) by lia.
  replace (Z.to_nat (Z.min b (Z.of_nat (length l1 + length l2)))) with (Z.to_nat b) by lia.
  replace (Z.to_nat (Z.min a (Z.of_nat (length l1)))) with (Z.to_nat a) by lia.
  replace (Z.to_nat (Z.min b (Z.of_nat (length l1)))) with (Z.to_nat b) by lia.
  rewrite drop_app_le by lia.
  rewrite take_app_le; [reflexivity|]. rewrite length_drop. lia.
Qed.

(** X5. What follows an accepted block is ignored.  When
    [parseEditBlock] returns a block for a text, it returns the same
    block for that text followed by a line feed and any further text: a
    final line feed, a comment, or a second block, which is never
    parsed. *)
Theorem parseEditBlock_trailing_text_ignored (blockContent trailing : string) (b : EditBlock) :
  parseEditBlock blockContent = Returned b ->
  parseEditBlock (blockContent +:+ JS.nl +:+ trailing) = Returned b.
Proof.
  unfold parseEditBlock. rewrite split_app_nl.
  set (l1 := JS.split JS.LF blockContent). set (l2 := JS.split JS.LF trailing).
  destruct l1 as [|line0 rest] eqn:Hl; [discriminate|]. simpl app. rewrite <- Hl.
  change (line0 :: rest ++ l2) with ((line0 :: rest) ++ l2). rewrite <- Hl.
  destruct (Z.eqb_spec (JS.arr_indexOf l1 SEARCH_MARKER) (-1)) as [|Es]; [discriminate|].
  destruct (Z.eqb_spec (JS.arr_indexOf l1 DIVIDER_MARKER) (-1)) as [|Ed]; [discriminate|].
  destruct (Z.eqb_spec (JS.arr_indexOf l1 REPLACE_MARKER) (-1)) as [|Er]; [discriminate|].
  cbn [orb]. intros Hb.
  rewrite !arr_indexOf_app_l by assumption.
  destruct (Z.eqb_spec (JS.arr_indexOf l1 SEARCH_MARKER) (-1)); [contradiction|].
  destruct (Z.eqb_spec (JS.arr_indexOf l1 DIVIDER_MARKER) (-1)); [contradiction|].
  destruct (Z.eqb_spec (JS.arr_indexOf l1 REPLACE_MARKER) (-1)); [contradiction|].
  cbn [orb].
  pose proof (arr_indexOf_range l1 SEARCH_MARKER) as Rs.
  pose proof (arr_indexOf_range l1 DIVIDER_MARKER) as Rd.
  pose proof (arr_indexOf_range l1 REPLACE_MARKER) as Rr.
  rewrite !slice_app_l by lia. exact Hb.
Qed.

Lemma parseEditBlock_trailing_text_ignored_witness :
  parseEditBlock (scenario3 +:+ JS.nl +:+ misorderedBlock)
  = Returned (mkEditBlock "test-file.txt" (mkSearchReplace "original content" "new content")).
Proof.
  refine (parseEditBlock_trailing_text_ignored scenario3 misorderedBlock _ _).
  vm_compute. reflexivity.
Defined.

(** ** X6 *)

Lemma slice_middle (pre mid post : list string) :
  JS.slice (pre ++ mid ++ post) (Z.of_nat (length pre)) (Z.of_nat (length pre + length mid))
  = mid.
Proof.
  unfold JS.slice. rewrite !relIndex_nat, !length_app.
  rewrite !Nat.min_l by lia.
  rewrite drop_app_length.
  replace (length pre + length mid - length pre)%nat with (length mid) by lia.
  apply take_app_length.
Qed.

(** The result for any lines before the opening marker and after the
    closing marker. *)
Lemma parseEditBlock_layout (before searchLines replaceLines after : list string) :
  Forall (fun x => lineFree x = true) (before ++ searchLines ++ replaceLines ++ after) ->
  (SEARCH_MARKER ∉ before) ->
  (DIVIDER_MARKER ∉ before ++ searchLines) ->
  (REPLACE_MARKER ∉ before ++ searchLines ++ replaceLines) ->
  parseEditBlock
    (JS.join JS.nl
       (before ++ SEARCH_MARKER :: searchLines ++ DIVIDER_MARKER
               :: replaceLines ++ REPLACE_MARKER :: after))
  = Returned (mkEditBlock (JS.trim (default SEARCH_MARKER (head before)))
      (mkSearchReplace (JS.join JS.nl searchLines) (JS.join JS.nl replaceLines))).
Proof.
  intros Hall Hs Hd Hr.
  apply Forall_app in Hall as [Hb Hall]. apply Forall_app in Hall as [HS Hall].
  apply Forall_app in Hall as [HR HA].
  apply not_elem_of_app in Hd as [Hdb HdS].
  apply not_elem_of_app in Hr as [Hrb Hr]. apply not_elem_of_app in Hr as [HrS HrR].
  set (L := before ++ SEARCH_MARKER :: searchLines ++ DIVIDER_MARKER
                   :: replaceLines ++ REPLACE_MARKER :: after).
  unfold parseEditBlock. rewrite split_join.
  2: { subst L. destruct before; discriminate. }
  2: { subst L. apply Forall_app. split; [exact Hb|]. constructor; [reflexivity|].
       apply Forall_app. split; [exact HS|]. constructor; [reflexivity|].
       apply Forall_app. split; [exact HR|]. constructor; [reflexivity|exact HA]. }
  assert (JS.arr_indexOf L SEARCH_MARKER = Z.of_nat (length before)) as Is.
  { subst L. apply arr_indexOf_app. exact Hs. }
  assert (JS.arr_indexOf L DIVIDER_MARKER
          = Z.of_nat (length (before ++ [SEARCH_MARKER]) + length searchLines)) as Id.
  { subst L.
    replace (before ++ SEARCH_MARKER :: searchLines ++ DIVIDER_MARKER
                    :: replaceLines ++ REPLACE_MARKER :: after)
      with ((before ++ SEARCH_MARKER :: searchLines) ++ DIVIDER_MARKER
              :: replaceLines ++ REPLACE_MARKER :: after)
      by (rewrite <- app_assoc; reflexivity).
    rewrite arr_indexOf_app.
    - f_equal. rewrite !length_app. simpl. lia.
    - rewrite not_elem_of_app, not_elem_of_cons.
      split; [exact Hdb|]. split; [discriminate|exact HdS]. }
  assert (JS.arr_indexOf L REPLACE_MARKER
          = Z.of_nat (length (before ++ SEARCH_MARKER :: searchLines ++ [DIVIDER_MARKER])
                      + length replaceLines)) as Ir.
  { subst L.
    replace (before ++ SEARCH_MARKER :: searchLines ++ DIVIDER_MARKER
                    :: replaceLines ++ REPLACE_MARKER :: after)
      with ((before ++ SEARCH_MARKER :: searchLines ++ DIVIDER_MARKER :: replaceLines)
              ++ REPLACE_MARKER :: after)
      by (rewrite <- !app_assoc; simpl; rewrite <- !app_assoc; reflexivity).
    rewrite arr_indexOf_app.
    - f_equal. rewrite !length_app. simpl. rewrite !length_app. simpl. lia.
    - rewrite not_elem_of_app, not_elem_of_cons, not_elem_of_app, not_elem_of_cons.
      split; [exact Hrb|]. split; [discriminate|]. split; [exact HrS|].
      split; [discriminate|exact HrR]. }
  assert (head L = Some (default SEARCH_MARKER (head before))) as Hhd
    by (subst L; destruct before; reflexivity).
  destruct L as [|line0 rest] eqn:HL; [discriminate|].
  simpl in Hhd. injection Hhd as ->.
  rewrite Is, Id, Ir.
  destruct (Z.eqb_spec (Z.of_nat (length before)) (-1)); [lia|].
  destruct (Z.eqb_spec (Z.of_nat (length (before ++ [SEARCH_MARKER]) + length searchLines)) (-1));
    [lia|].
  destruct (Z.eqb_spec
              (Z.of_nat (length (before ++ SEARCH_MARKER :: searchLines ++ [DIVIDER_MARKER])
                         + length replaceLines)) (-1)); [lia|].
  cbn [orb]. rewrite <- HL. unfold L. f_equal. f_equal. f_equal.
  - f_equal.
    replace (Z.of_nat (length before) + 1) with (Z.of_nat (length (before ++ [SEARCH_MARKER])))
      by (rewrite length_app; simpl; lia).
    replace (before ++ SEARCH_MARKER :: searchLines ++ DIVIDER_MARKER
                    :: replaceLines ++ REPLACE_MARKER :: after)
      with ((before ++ [SEARCH_MARKER]) ++ searchLines ++ DIVIDER_MARKER
              :: replaceLines ++ REPLACE_MARKER :: after)
      by (rewrite <- app_assoc; reflexivity).
    apply slice_middle.
  - f_equal.
    replace (Z.of_nat (length (before ++ [SEARCH_MARKER]) + length searchLines) + 1)
      with (Z.of_nat (length (before ++ SEARCH_MARKER :: searchLines ++ [DIVIDER_MARKER])))
      by (rewrite !length_app; simpl; rewrite !length_app; simpl; lia).
    replace (before ++ SEARCH_MARKER :: searchLines ++ DIVIDER_MARKER
                    :: replaceLines ++ REPLACE_MARKER :: after)
      with ((before ++ SEARCH_MARKER :: searchLines ++ [DIVIDER_MARKER])
              ++ replaceLines ++ REPLACE_MARKER :: after)
      by (rewrite <- !app_assoc; simpl; rewrite <- !app_assoc; reflexivity).
    apply slice_middle.
Qed.

(** X6. The path is the first line, whatever that line is, and nothing
    checks it.  For any lines [before] the opening marker, none of them
    a marker: when there is none, the block begins with the opening
    marker and the file path returned is the text of that marker; when
    there are some, the path is the first of them, trimmed, and the
    others are dropped. *)
Theorem parseEditBlock_first_line_is_path
    (before searchLines replaceLines : list string) :
  Forall (fun x => lineFree x = true) (before ++ searchLines ++ replaceLines) ->
  (SEARCH_MARKER ∉ before) ->
  (DIVIDER_MARKER ∉ before ++ searchLines) ->
  (REPLACE_MARKER ∉ before ++ searchLines ++ replaceLines) ->
  parseEditBlock
    (JS.join JS.nl
       (before ++ SEARCH_MARKER :: searchLines ++ DIVIDER_MARKER
               :: replaceLines ++ [REPLACE_MARKER]))
  = Returned (mkEditBlock
      (match before with [] => SEARCH_MARKER | line0 :: _ => JS.trim line0 end)
      (mkSearchReplace (JS.join JS.nl searchLines) (JS.join JS.nl replaceLines))).
Proof.
  intros Hall Hs Hd Hr.
  rewrite (parseEditBlock_layout before searchLines replaceLines []); try assumption.
  - destruct before; reflexivity.
  - rewrite !app_nil_r. exact Hall.
Qed.

Lemma parseEditBlock_first_line_is_path_witness :
  parseEditBlock
    (JS.join JS.nl ([] ++ SEARCH_MARKER :: ["original content"] ++ DIVIDER_MARKER
                       :: ["new content"] ++ [REPLACE_MARKER]))
  = Returned (mkEditBlock "<<<<<<< SEARCH" (mkSearchReplace "original content" "new content")).
Proof.
  refine (parseEditBlock_first_line_is_path [] ["original content"] ["new content"] _ _ _ _).
  - repeat constructor.
  - not_in_list.
  - not_in_list.
  - not_in_list.
Defined.

(** ** X7 *)

Lemma arr_indexOf_FirstIndex (l : list string) x (i : nat) :
  JS.arr_indexOf l x = Z.of_nat i -> FirstIndex l x i.
Proof.
  revert i. induction l as [|y l IH]; intros i; simpl; [lia|].
  destruct (decide (y = x)) as [->|Hne].
  - intros Hi. assert (i = 0%nat) as -> by lia. split; [reflexivity|]. intros j Hj. lia.
  - destruct (Z.eqb_spec (JS.arr_indexOf l x) (-1)) as [|Hn]; [lia|].
    pose proof (arr_indexOf_range l x) as Hr.
    intros Hi. destruct i as [|i]; [destruct Hr as [?|[? _]]; lia|].
    destruct (IH i ltac:(lia)) as [H1 H2]. split; [exact H1|].
    intros [|j] Hj; simpl; [congruence|]. apply H2. lia.
Qed.

(** No line of [slice l a (indexOf l x)] is [x]. *)
Lemma slice_before_first (l : list string) x (a : Z) :
  0 <= a -> JS.arr_indexOf l x <> -1 ->
  x ∉ JS.slice l a (JS.arr_indexOf l x).
Proof.
  intros Ha Hd.
  pose proof (arr_indexOf_range l x) as Hr.
  assert (exists d : nat, JS.arr_indexOf l x = Z.of_nat d) as [d Hidx]
    by (exists (Z.to_nat (JS.arr_indexOf l x)); destruct Hr as [?|[? _]]; lia).
  destruct (arr_indexOf_FirstIndex _ _ _ Hidx) as [_ Hmin].
  rewrite Hidx. unfold JS.slice.
  replace a with (Z.of_nat (Z.to_nat a)) by lia. rewrite !relIndex_nat.
  set (k := Nat.min (Z.to_nat a) (length l)). set (f := Nat.min d (length l)).
  intros Hin. apply list_elem_of_lookup in Hin as [j Hj].
  apply lookup_take_Some in Hj as [Hj Hlt].
  rewrite lookup_drop in Hj.
  apply (Hmin (k + j)%nat); [lia|exact Hj].
Qed.

Lemma split_join_lines (l : list string) :
  Forall (fun x => lineFree x = true) l ->
  JS.split JS.LF (JS.join JS.nl l) = match l with [] => [""] | _ => l end.
Proof.
  intros Hall. destruct l as [|x l]; [reflexivity|].
  apply split_join; [discriminate|exact Hall].
Qed.

Lemma lineFree_slice (l : list string) (a b : Z) :
  Forall (fun x => lineFree x = true) l ->
  Forall (fun x => lineFree x = true) (JS.slice l a b).
Proof. intros H. unfold JS.slice. apply Forall_take, Forall_drop, H. Qed.

Lemma marker_not_in_joined (l : list string) (m : string) :
  Forall (fun x => lineFree x = true) l -> m <> "" -> (m ∉ l) ->
  (m ∉ JS.split JS.LF (JS.join JS.nl l)).
Proof.
  intros Hall Hne Hin. rewrite split_join_lines by exact Hall.
  destruct l; [|exact Hin].
  intros H. apply elem_of_cons in H as [H|H]; [congruence|]. apply elem_of_nil in H. exact H.
Qed.

(** X7. What a returned block never holds.  For every input, markers in
    order or not: no line of the search text returned is the divider, and
    no line of the replace text returned is the closing marker.  An edit
    whose search text has a line [=======], or whose replace text has a
    line [>>>>>>> REPLACE], cannot be expressed in the block format. *)
Theorem parseEditBlock_result_markers (blockContent : string) (b : EditBlock) :
  parseEditBlock blockContent = Returned b ->
  (DIVIDER_MARKER ∉ JS.split JS.LF (search (searchReplace b)))
  /\ (REPLACE_MARKER ∉ JS.split JS.LF (replace (searchReplace b))).
Proof.
  unfold parseEditBlock.
  pose proof (lineFree_split blockContent) as Hall.
  set (L := JS.split JS.LF blockContent) in *.
  destruct L as [|line0 rest] eqn:HL; [discriminate|]. rewrite <- HL in *. clear HL.
  pose proof (arr_indexOf_range L SEARCH_MARKER) as Rs.
  pose proof (arr_indexOf_range L DIVIDER_MARKER) as Rd.
  destruct (Z.eqb_spec (JS.arr_indexOf L SEARCH_MARKER) (-1)) as [|Es]; [discriminate|].
  destruct (Z.eqb_spec (JS.arr_indexOf L DIVIDER_MARKER) (-1)) as [|Ed]; [discriminate|].
  destruct (Z.eqb_spec (JS.arr_indexOf L REPLACE_MARKER) (-1)) as [|Er]; [discriminate|].
  cbn [orb]. intros [= <-]. cbn [searchReplace search replace]. split.
  - apply marker_not_in_joined; [apply lineFree_slice, Hall|discriminate|].
    apply slice_before_first; [destruct Rs as [?|[? _]]; lia|exact Ed].
  - apply marker_not_in_joined; [apply lineFree_slice, Hall|discriminate|].
    apply slice_before_first; [destruct Rd as [?|[? _]]; lia|exact Er].
Qed.

Lemma parseEditBlock_result_markers_witness :
  (DIVIDER_MARKER ∉ JS.split JS.LF "")
  /\ (REPLACE_MARKER
      ∉ JS.split JS.LF
          ("new content" +:+ JS.nl +:+ "<<<<<<< SEARCH" +:+ JS.nl +:+ "original content")).
Proof.
  exact (parseEditBlock_result_markers misorderedBlock
           (mkEditBlock "test-file.txt"
              (mkSearchReplace ""
                 ("new content" +:+ JS.nl +:+ "<<<<<<< SEARCH" +:+ JS.nl +:+ "original content")))
           eq_refl).
Defined.

(* ===================================================================== *)
(** * Further properties of the engines and of the selector               *)
(* ===================================================================== *)

Lemma str_take_app (a b : string) : JS.str_take (String.length a) (a +:+ b) = a.
Proof.
  induction a as [|ch a IH]; [destruct b; reflexivity|].
  rewrite app_cons. simpl. rewrite IH. reflexivity.
Qed.

(** Putting the search string back where the replace string was written
    gives the old content. *)
Lemma spliced_inverse (c s r : string) (i : nat) :
  JS.indexOf c s = Z.of_nat i ->
  JS.indexOf (spliced c (Z.of_nat i) (mkSearchReplace s r)) r = Z.of_nat i ->
  spliced (spliced c (Z.of_nat i) (mkSearchReplace s r)) (Z.of_nat i) (mkSearchReplace r s) = c.
Proof.
  intros Hi Hj.
  pose proof (indexOf_range c s) as Hr. unfold JS.len in Hr.
  rewrite (spliced_eq _ (mkSearchReplace r s) i) by exact Hj.
  rewrite (spliced_eq c (mkSearchReplace s r) i) by exact Hi. cbn [search replace].
  destruct (indexOf_found _ _ _ Hi) as [Hc _].
  set (pre := JS.str_take i c) in *. set (post := JS.str_drop (i + String.length s) c) in *.
  assert (String.length pre = i) as Hlen by (apply str_take_length; lia).
  rewrite <- Hlen at 1. rewrite str_take_app.
  replace (i + String.length r)%nat with (String.length (pre +:+ r))
    by (rewrite length_app_str; lia).
  rewrite <- (app_assoc_str pre r post), str_drop_app. symmetry. exact Hc.
Qed.

Section EngineAnatomy.
Context {sys : Sys}.

Local Ltac step H :=
  unfold bind at 1, prim at 1 in H; cbn [env trace] in H.

Local Ltac stop H :=
  injection H as <- <-; cbn [trace]; rewrite <- ?app_assoc; cbn [app].

(** One pass through the [try] block: what it adds to the trace and what
    it can throw. *)
Lemma gitBasedReplace_try_anatomy filePath block T st r st' :
  gitBasedReplace_try filePath block T (tempFilePathIn T filePath) st = (r, st') ->
  exists newContent patchContent calls,
    trace st' = trace st ++ calls
    /\ calls `prefix_of` engineCalls filePath T newContent patchContent
    /\ (r = Returned tt -> (9 <= length calls)%nat)
    /\ (forall e, r = Thrown e ->
          e = notFoundError filePath \/ thrownByApply filePath T e
          \/ thrownByStep filePath T e).
Proof.
  intros Hrun. unfold gitBasedReplace_try in Hrun.
  set (tmp := tempFilePathIn T filePath) in *.
  (* mkdir *)
  step Hrun.
  destruct (fs_mkdir T (env st)) as [[u1|e1] w1] eqn:E1; cbn [fst snd env trace] in Hrun.
  2: { stop Hrun. exists "", "". eexists. split; [reflexivity|].
       split; [eexists; reflexivity|]. split; [discriminate|].
       intros e [= <-]. right. right. exists (env st). rewrite E1. tauto. }
  (* copyFile *)
  step Hrun.
  destruct (fs_copyFile filePath tmp w1) as [[u2|e2] w2] eqn:E2; cbn [fst snd env trace] in Hrun.
  2: { stop Hrun. exists "", "". eexists. split; [reflexivity|].
       split; [eexists; reflexivity|]. split; [discriminate|].
       intros e [= <-]. right. right. exists w1. fold tmp. rewrite E2. tauto. }
  (* git init *)
  step Hrun.
  destruct (exec (initCmd T) w2) as [[o3|e3] w3] eqn:E3; cbn [fst snd env trace] in Hrun.
  2: { stop Hrun. exists "", "". eexists. split; [reflexivity|].
       split; [eexists; reflexivity|]. split; [discriminate|].
       intros e [= <-]. right. right. exists w2. rewrite E3. tauto. }
  (* git add, git commit *)
  step Hrun.
  destruct (exec (commitCmd T (path_basename filePath)) w3) as [[o4|e4] w4] eqn:E4;
    cbn [fst snd env trace] in Hrun.
  2: { stop Hrun. exists "", "". eexists. split; [reflexivity|].
       split; [eexists; reflexivity|]. split; [discriminate|].
       intros e [= <-]. right. right. exists w3. rewrite E4. tauto. }
  (* readFile of the workspace copy *)
  step Hrun.
  destruct (fs_readFile tmp w4) as [[content|e5] w5] eqn:E5; cbn [fst snd env trace] in Hrun.
  2: { stop Hrun. exists "", "". eexists. split; [reflexivity|].
       split; [eexists; reflexivity|]. split; [discriminate|].
       intros e [= <-]. right. right. exists w4. fold tmp. rewrite E5. tauto. }
  destruct (JS.indexOf content (search block) =? -1).
  { unfold throw in Hrun. stop Hrun. exists "", "". eexists. split; [reflexivity|].
    split; [eexists; reflexivity|]. split; [discriminate|].
    intros e [= <-]. left. reflexivity. }
  unfold gitBasedReplace_patch in Hrun.
  set (new := spliced content (JS.indexOf content (search block)) block) in *.
  (* writeFile of the workspace copy *)
  step Hrun.
  destruct (fs_writeFile tmp new w5) as [[u6|e6] w6] eqn:E6; cbn [fst snd env trace] in Hrun.
  2: { stop Hrun. exists new, "". eexists. split; [reflexivity|].
       split; [eexists; reflexivity|]. split; [discriminate|].
       intros e [= <-]. right. right. exists w5. fold tmp.
       do 5 right. left. exists new. rewrite E6. reflexivity. }
  (* git diff *)
  step Hrun.
  destruct (exec (diffCmd T) w6) as [[o7|e7] w7] eqn:E7; cbn [fst snd env trace] in Hrun.
  2: { stop Hrun. exists new, "". eexists. split; [reflexivity|].
       split; [eexists; reflexivity|]. split; [discriminate|].
       intros e [= <-]. right. right. exists w6. rewrite E7. tauto. }
  (* writeFile of the patch file *)
  step Hrun.
  destruct (fs_writeFile (patchFileIn T) (stdout o7) w7) as [[u8|e8] w8] eqn:E8;
    cbn [fst snd env trace] in Hrun.
  2: { stop Hrun. exists new, (stdout o7). eexists. split; [reflexivity|].
       split; [eexists; reflexivity|]. split; [discriminate|].
       intros e [= <-]. right. right. exists w7.
       do 7 right. exists (stdout o7). rewrite E8. reflexivity. }
  (* git apply, then git apply --3way *)
  unfold bind at 1, applyPatch, try_catch in Hrun.
  step Hrun.
  destruct (exec (applyCmd (path_dirname filePath) (patchFileIn T)) w8)
    as [[o9|e9] w9] eqn:E9; cbn [fst snd env trace] in Hrun.
  { unfold ret in Hrun. stop Hrun. exists new, (stdout o7). eexists. split; [reflexivity|].
    split; [eexists; reflexivity|]. split; [intros _; simpl; lia|discriminate]. }
  step Hrun.
  destruct (exec (apply3wayCmd (path_dirname filePath) (patchFileIn T)) w9)
    as [[o10|e10] w10] eqn:E10; cbn [fst snd env trace] in Hrun.
  { unfold ret in Hrun. stop Hrun. exists new, (stdout o7). eexists. split; [reflexivity|].
    split; [eexists; reflexivity|]. split; [intros _; simpl; lia|discriminate]. }
  unfold throw in Hrun. stop Hrun. exists new, (stdout o7). eexists. split; [reflexivity|].
  split; [exists []; reflexivity|]. split; [discriminate|].
  intros e [= <-]. right. left. exists w8, e9, w9, e10.
  split; [exact E9|]. rewrite E10. split; reflexivity.
Qed.

(** ** X8 *)

(** X8. The in-memory engine writes only what changes.  On every
    machine, once [readFile] has returned the content [c] and the search
    string occurs in [c]: when the new content equals [c], as it does
    whenever the replace string is the search string, the engine returns
    without calling [writeFile]; otherwise it calls [writeFile] once,
    with the whole new content, and the outcome of that call is its
    outcome. *)
Theorem simpleInMemoryReplace_writes_only_changes (st : State) filePath block c w1 :
  readFile filePath (env st) = (Returned c, w1) ->
  JS.indexOf c (search block) <> -1 ->
  let newContent := spliced c (JS.indexOf c (search block)) block in
  (replace block = search block -> newContent = c)
  /\ (newContent = c ->
      simpleInMemoryReplace filePath block st
      = (Returned tt, mkState w1 (trace st ++ [EvReadFile filePath])))
  /\ (newContent <> c ->
      simpleInMemoryReplace filePath block st
      = ((writeFile filePath newContent w1).1,
         mkState (writeFile filePath newContent w1).2
           (trace st ++ [EvReadFile filePath; EvWriteFile filePath newContent]))).
Proof.
  intros Hread Hi newContent. split; [|split].
  - intros Heq. subst newContent.
    pose proof (indexOf_range c (search block)) as Hr.
    assert (exists i : nat, JS.indexOf c (search block) = Z.of_nat i) as [i Hidx]
      by (exists (Z.to_nat (JS.indexOf c (search block))); lia).
    rewrite Hidx, (spliced_eq _ _ _ Hidx), Heq.
    destruct (indexOf_found _ _ _ Hidx) as [Hc _]. symmetry. exact Hc.
  - intros Heq. unfold simpleInMemoryReplace, bind, prim. rewrite Hread. cbn [fst snd].
    destruct (Z.eqb_spec (JS.indexOf c (search block)) (-1)); [contradiction|].
    fold newContent. destruct (decide (newContent <> c)); [contradiction|]. reflexivity.
  - intros Hne. unfold simpleInMemoryReplace, bind, prim. rewrite Hread. cbn [fst snd].
    destruct (Z.eqb_spec (JS.indexOf c (search block)) (-1)); [contradiction|].
    fold newContent. destruct (decide (newContent <> c)); [|contradiction].
    cbn [env trace]. rewrite <- app_assoc. reflexivity.
Qed.

(** ** X9 *)

(** X9. A file that cannot be examined.  On every machine, when [stat]
    throws [e], as it does for a path at which there is no file,
    [performSearchReplace] throws the message of [e] behind the prefix
    of the outer handler; it has made no other call: no engine is
    started, nothing is read, written or created, and there is no
    fallback. *)
Theorem performSearchReplace_stat_failure (st : State) filePath block (e : JsError) w1 :
  fs_stat filePath (env st) = (Thrown e, w1) ->
  performSearchReplace filePath block st
  = (Thrown (mkError ("Failed to perform search/replace: " +:+ message e)),
     mkState w1 (trace st ++ [EvStat filePath])).
Proof.
  intros Hstat. rewrite performSearchReplace_run.
  unfold performSearchReplace_try, bind, prim. rewrite Hstat. reflexivity.
Qed.

(** ** X10 *)

(** X10. The calls of the diff/patch engine, in order.  On every machine
    and for every input, what [gitBasedReplace] adds to the trace is a
    prefix of the ten calls of [engineCalls] (mkdir, copyFile, git init,
    git add and commit, readFile and writeFile of the workspace copy, git
    diff, writeFile of the patch file, git apply, git apply --3way), each
    made at most once and in that order, followed by [rm] of the
    workspace and by at most one line on the console.  So [copyFile],
    which reads the target, is the only call of [fs] on a path other than
    the workspace directory, the workspace copy and the patch file; and
    when the engine returns, at least the first nine calls have been
    made. *)
Theorem gitBasedReplace_call_sequence (st : State) filePath block :
  let T := workspaceOf st in
  let final := gitBasedReplace filePath block st in
  exists newContent patchContent calls tail,
    newEvents st final.2 = calls ++ EvRm T :: tail
    /\ calls `prefix_of` engineCalls filePath T newContent patchContent
    /\ (tail = [] \/ exists msg, tail = [EvConsoleError msg])
    /\ (final.1 = Returned tt -> (9 <= length calls)%nat).
Proof.
  intros T final. subst final. rewrite gitBasedReplace_run. fold (workspaceOf st). fold T.
  set (st0 := mkState _ _).
  destruct (gitBasedReplace_try filePath block T (tempFilePathIn T filePath) st0)
    as [rb sb] eqn:Eb.
  destruct (gitBasedReplace_try_anatomy _ _ _ _ _ _ Eb)
    as (newContent & patchContent & calls & Tb & Pb & Lb & _).
  exists newContent, patchContent, calls. eexists.
  cbn [fst snd]. split; [|split; [exact Pb|split; [|exact Lb]]].
  - unfold newEvents. cbn [trace]. rewrite Tb. unfold st0. cbn [trace].
    rewrite <- app_assoc, drop_app_length. reflexivity.
  - destruct (fs_rm T (env sb)).1; [left; reflexivity|right; eexists; reflexivity].
Qed.

(** ** X11 *)

(** X11. What the diff/patch engine can throw.  On every machine, an
    error thrown by [gitBasedReplace] is one of three: the not-found
    error, which names the target file and not the workspace copy in
    which the search was made; the error "Failed to apply changes: "
    followed by the text of the error of the three-way application, the
    error of the direct application being dropped; or, unchanged, the
    error thrown by one of the other primitives of the [try] block.  An
    error of the cleanup is never among them. *)
Theorem gitBasedReplace_errors (st : State) filePath block (e : JsError) :
  (gitBasedReplace filePath block st).1 = Thrown e ->
  e = notFoundError filePath
  \/ thrownByApply filePath (workspaceOf st) e
  \/ thrownByStep filePath (workspaceOf st) e.
Proof.
  rewrite gitBasedReplace_run. fold (workspaceOf st).
  set (T := workspaceOf st). set (st0 := mkState _ _).
  destruct (gitBasedReplace_try filePath block T (tempFilePathIn T filePath) st0)
    as [rb sb] eqn:Eb.
  destruct (gitBasedReplace_try_anatomy _ _ _ _ _ _ Eb) as (_ & _ & _ & _ & _ & _ & He).
  cbn [fst]. exact (He e).
Qed.

End EngineAnatomy.

Section Undo.
Context {sys : Sys}.
Variable content : world -> string -> option string.
Hypothesis RS : ReliableStore content.

(** The selector on a file of fewer than 1,000,000 bytes that contains the
    search string: no assumption on the shell is needed. *)
Lemma performSearchReplace_small_spliced (st : State) filePath block c :
  content (env st) filePath = Some c ->
  JS.indexOf c (search block) <> -1 ->
  byteLength c < 1000000 ->
  exists st',
    performSearchReplace filePath block st = (Returned tt, st')
    /\ content (env st') filePath
       = Some (spliced c (JS.indexOf c (search block)) block).
Proof.
  intros Hc Hi Hsize.
  destruct (stat_run content RS _ _ _ Hc) as [Hstat Hc1].
  rewrite performSearchReplace_run.
  rewrite (performSearchReplace_try_small _ _ _ _ _ Hstat Hsize).
  change (mkState (env (afterStat filePath st)) (trace st ++ [EvStat filePath]))
    with (afterStat filePath st).
  destruct (simpleInMemoryReplace_found content RS filePath block
              (afterStat filePath st) c Hc1 Hi) as (st' & Hrun & Hcontent & _).
  exists st'. rewrite Hrun. split; [reflexivity|exact Hcontent].
Qed.

(** On a reliable store, in a file of fewer than 1,000,000 bytes that
    contains the search string, the first occurrence is replaced and the
    rest is kept: the selector returns, and the file holds [pre], the
    replace string and [post]. *)
Lemma performSearchReplace_first_occurrence_small (st : State) filePath block c :
  content (env st) filePath = Some c ->
  IsSubstring (search block) c ->
  byteLength c < 1000000 ->
  exists pre post st',
    FirstOccurrence c (search block) pre post
    /\ performSearchReplace filePath block st = (Returned tt, st')
    /\ content (env st') filePath = Some (pre +:+ replace block +:+ post).
Proof.
  intros Hc Hsub Hsize.
  destruct (found_split _ _ Hsub) as [Hi Hsplit].
  destruct (Hsplit (replace block)) as (pre & post & Hfirst & Hnew).
  replace (mkSearchReplace (search block) (replace block)) with block in Hnew
    by (destruct block; reflexivity).
  destruct (performSearchReplace_small_spliced st filePath block c Hc Hi Hsize)
    as (st' & Hrun & Hcontent).
  exists pre, post, st'. rewrite <- Hnew.
  split; [exact Hfirst|]. split; [exact Hrun|exact Hcontent].
Qed.

(** ** X12 *)

(** X12. Undoing an edit of a small file.  On a reliable store, for a
    file whose content [c] and whose new content both have fewer than
    1,000,000 bytes, so that both edits go through the in-memory engine:
    after the edit that replaces [s] by [r], the edit that replaces [r]
    by [s] gives [c] back, provided that the first occurrence of [r] in
    the new content is the one the first edit wrote, that is, starts at
    the index at which [s] was found. *)
Theorem performSearchReplace_undo (st : State) filePath (s r c : string) :
  content (env st) filePath = Some c ->
  JS.indexOf c s <> -1 ->
  let newContent := spliced c (JS.indexOf c s) (mkSearchReplace s r) in
  JS.indexOf newContent r = JS.indexOf c s ->
  byteLength c < 1000000 ->
  byteLength newContent < 1000000 ->
  exists st1 st2,
    performSearchReplace filePath (mkSearchReplace s r) st = (Returned tt, st1)
    /\ content (env st1) filePath = Some newContent
    /\ performSearchReplace filePath (mkSearchReplace r s) st1 = (Returned tt, st2)
    /\ content (env st2) filePath = Some c.
Proof.
  intros Hc Hi newContent Hj Hsize1 Hsize2.
  destruct (performSearchReplace_small_spliced st filePath (mkSearchReplace s r) c
              Hc Hi Hsize1) as (st1 & Hrun1 & Hc1).
  cbn [search] in Hc1. fold newContent in Hc1.
  destruct (performSearchReplace_small_spliced st1 filePath (mkSearchReplace r s) newContent
              Hc1) as (st2 & Hrun2 & Hc2).
  { cbn [search]. rewrite Hj. exact Hi. }
  { exact Hsize2. }
  exists st1, st2. split; [exact Hrun1|]. split; [exact Hc1|]. split; [exact Hrun2|].
  rewrite Hc2. f_equal. cbn [search]. rewrite Hj.
  pose proof (indexOf_range c s) as Hr.
  assert (exists i : nat, JS.indexOf c s = Z.of_nat i) as [i Hidx]
    by (exists (Z.to_nat (JS.indexOf c s)); lia).
  subst newContent. rewrite Hidx in *. apply spliced_inverse; assumption.
Qed.

End Undo.

(** ** Runs on the reference machine *)

(** X8: replacing "original content" by itself in the file of scenario 1. *)
Lemma simpleInMemoryReplace_writes_only_changes_witness :
  @simpleInMemoryReplace Ref.machine workFile
    (mkSearchReplace "original content" "original content") workState
  = (Returned tt, mkState (env workState) (trace workState ++ [EvReadFile workFile])).
Proof.
  pose proof (@simpleInMemoryReplace_writes_only_changes Ref.machine workState workFile
                (mkSearchReplace "original content" "original content") scenario1
                (env workState) eq_refl ltac:(vm_compute; discriminate)) as H.
  exact (proj1 (proj2 H) (proj1 H eq_refl)).
Defined.

(** X12: scenario 1, and back. *)
Lemma performSearchReplace_undo_witness :
  exists st1 st2,
    @performSearchReplace Ref.machine workFile (mkSearchReplace "original content" "new content")
      workState = (Returned tt, st1)
    /\ RefContract.content (env st1) workFile
       = Some (spliced scenario1 (JS.indexOf scenario1 "original content")
                 (mkSearchReplace "original content" "new content"))
    /\ @performSearchReplace Ref.machine workFile
         (mkSearchReplace "new content" "original content") st1 = (Returned tt, st2)
    /\ RefContract.content (env st2) workFile = Some scenario1.
Proof.
  refine (@performSearchReplace_undo Ref.machine RefContract.content
            ref_reliable workState workFile "original content" "new content" scenario1
            _ _ _ _ _).
  - vm_compute. reflexivity.
  - vm_compute. discriminate.
  - vm_compute. reflexivity.
  - vm_compute. reflexivity.
  - vm_compute. reflexivity.
Defined.

(** X9: a path at which there is no file. *)
Lemma performSearchReplace_stat_failure_witness :
  @performSearchReplace Ref.machine missingFile block1 workState
  = (Thrown (mkError ("Failed to perform search/replace: "
       +:+ "ENOENT: no such file or directory, stat '/tmp/work/missing.txt'")),
     mkState (env workState) (trace workState ++ [EvStat missingFile])).
Proof.
  refine (@performSearchReplace_stat_failure Ref.machine workState missingFile block1
            (mkError "ENOENT: no such file or directory, stat '/tmp/work/missing.txt'")
            (env workState) _).
  vm_compute. reflexivity.
Defined.

(** X11: the directory with a blank, where both applications fail. *)
Lemma gitBasedReplace_errors_witness :
  blankApplyError = notFoundError blankFile
  \/ @thrownByApply Ref.machine blankFile (workspaceOf blankState) blankApplyError
  \/ @thrownByStep Ref.machine blankFile (workspaceOf blankState) blankApplyError.
Proof.
  refine (@gitBasedReplace_errors Ref.machine blankState blankFile block1 blankApplyError _).
  vm_compute. reflexivity.
Defined.

(* ===================================================================== *)
(** * Further properties of the command lines                             *)
(* ===================================================================== *)

Lemma portableChar_plain (c : ascii) :
  portableChar c = true -> c <> "034"%char /\ c <> " "%char.
Proof.
  intros H. split; intros ->; vm_compute in H; discriminate.
Qed.

Lemma portableChars_plainWord (s : string) : portableChars s = true -> plainWord s = true.
Proof.
  induction s as [|c s IH]; [reflexivity|]. simpl. intros H.
  apply andb_true_iff in H as [Hc Hs]. destruct (portableChar_plain c Hc) as [H1 H2].
  destruct (decide (c = "034"%char)); [contradiction|].
  destruct (decide (c = " "%char)); [contradiction|]. apply IH, Hs.
Qed.

(** A portable path is one word for the shell, and is not its
    and-operator. *)
Lemma portablePath_spec (s : string) :
  portablePath s = true -> plainWord s = true /\ s <> "" /\ s <> "&&".
Proof.
  unfold portablePath. intros H. apply andb_true_iff in H as [Hne Hs].
  apply negb_true_iff, bool_decide_eq_false in Hne.
  split; [apply portableChars_plainWord, Hs|]. split; [exact Hne|].
  intros ->. vm_compute in Hs. discriminate.
Qed.

Lemma commandName_spec (s : string) :
  commandName s = true -> plainWord s = true /\ s <> "" /\ s <> "&&".
Proof.
  unfold commandName. intros H. apply andb_true_iff in H as [H _].
  apply portablePath_spec, H.
Qed.

Lemma shellWords_go_last (u : string) :
  plainWord u = true -> u <> "" -> shellWords_go u false "" false = [u].
Proof.
  intros Hu Hne. rewrite <- (app_empty_r u) at 1.
  rewrite shellWords_go_plain by exact Hu.
  rewrite bool_decide_eq_false_2 by exact Hne. reflexivity.
Qed.

Lemma splitOn_word sep (w : string) (ws : list string) :
  w <> sep ->
  splitOn sep (w :: ws)
  = match splitOn sep ws with g :: gs => (w :: g) :: gs | [] => [[w]] end.
Proof. intros H. simpl. destruct (decide (w = sep)); [contradiction|reflexivity]. Qed.

Lemma splitOn_sep sep (ws : list string) : splitOn sep (sep :: ws) = [] :: splitOn sep ws.
Proof. simpl. destruct (decide (sep = sep)); [reflexivity|contradiction]. Qed.

Lemma shellWords_commit_injected (T base cmd : string) :
  plainWord T = true -> T <> "" -> plainWord base = true -> base <> "" ->
  plainWord cmd = true -> cmd <> "" ->
  shellWords (commitCmd T (base +:+ " && " +:+ cmd))
  = ["cd"; T; "&&"; "git"; "add"; base; "&&"; cmd; "&&"; "git"; "commit"; "-m"; "Original file"].
Proof.
  intros HT NT Ha Na Hb Nb.
  unfold shellWords, commitCmd.
  change ("cd " +:+ ?x) with ("cd" +:+ " " +:+ x).
  rewrite shellWords_go_word by (reflexivity || discriminate).
  change (" && git add " +:+ ?x)
    with (" " +:+ "&&" +:+ " " +:+ "git" +:+ " " +:+ "add" +:+ " " +:+ x).
  rewrite shellWords_go_word by assumption.
  do 3 (rewrite shellWords_go_word by (reflexivity || discriminate)).
  rewrite !app_assoc_str.
  change (" && " +:+ ?x) with (" " +:+ "&&" +:+ " " +:+ x).
  rewrite shellWords_go_word by assumption.
  rewrite shellWords_go_word by (reflexivity || discriminate).
  change (" && git commit -m " +:+ ?x)
    with (" " +:+ "&&" +:+ " " +:+ "git" +:+ " " +:+ "commit" +:+ " " +:+ "-m" +:+ " " +:+ x).
  rewrite shellWords_go_word by assumption.
  do 4 (rewrite shellWords_go_word by (reflexivity || discriminate)).
  reflexivity.
Qed.

Lemma shellWords_apply_injected (dir cmd patchFile : string) :
  plainWord dir = true -> dir <> "" -> plainWord cmd = true -> cmd <> "" ->
  plainWord patchFile = true -> patchFile <> "" ->
  shellWords (applyCmd (dir +:+ " && " +:+ cmd) patchFile)
  = ["cd"; dir; "&&"; cmd; "&&"; "git"; "apply"; patchFile].
Proof.
  intros Hd Nd Hb Nb Hp Np.
  unfold shellWords, applyCmd.
  change ("cd " +:+ ?x) with ("cd" +:+ " " +:+ x).
  rewrite shellWords_go_word by (reflexivity || discriminate).
  rewrite !app_assoc_str.
  change (" && " +:+ ?x) with (" " +:+ "&&" +:+ " " +:+ x).
  rewrite shellWords_go_word by assumption.
  rewrite shellWords_go_word by (reflexivity || discriminate).
  change (" && git apply " +:+ ?x)
    with (" " +:+ "&&" +:+ " " +:+ "git" +:+ " " +:+ "apply" +:+ " " +:+ x).
  rewrite shellWords_go_word by assumption.
  do 3 (rewrite shellWords_go_word by (reflexivity || discriminate)).
  rewrite shellWords_go_last by assumption. reflexivity.
Qed.

(** ** X13 *)

(** X13. A name can add a command to the command line.  For a workspace
    directory, a base name, a directory and a patch file made of
    portable characters (letters, digits, period, underscore, hyphen,
    slash), on which the word splitting of Part 8 is that of [sh], and
    for [cmd] the name of a command: when the base name of the target is
    [base], then [ && ] and [cmd], the and-list that the commit command
    line hands to the shell has a simple command that is [cmd] alone,
    between [git add base] and [git commit]; and when the directory of
    the target is [dir], then [ && ] and [cmd], the and-list of the
    apply command line has the simple command [cmd] between [cd dir] and
    [git apply]. *)
Theorem commands_and_list_injection (T base dir cmd patchFile : string) :
  portablePath T = true -> portablePath base = true -> portablePath dir = true ->
  commandName cmd = true -> portablePath patchFile = true ->
  splitOn "&&" (shellWords (commitCmd T (base +:+ " && " +:+ cmd)))
  = [["cd"; T]; ["git"; "add"; base]; [cmd]; ["git"; "commit"; "-m"; "Original file"]]
  /\ splitOn "&&" (shellWords (applyCmd (dir +:+ " && " +:+ cmd) patchFile))
     = [["cd"; dir]; [cmd]; ["git"; "apply"; patchFile]].
Proof.
  intros HT Hb Hd Hc Hp.
  apply portablePath_spec in HT as (HT & NT & MT).
  apply portablePath_spec in Hb as (Hb & Nb & Mb).
  apply portablePath_spec in Hd as (Hd & Nd & Md).
  apply commandName_spec in Hc as (Hc & Nc & Mc).
  apply portablePath_spec in Hp as (Hp & Np & Mp).
  split.
  - rewrite shellWords_commit_injected by assumption.
    repeat first [ rewrite splitOn_sep
                 | rewrite splitOn_word by (assumption || discriminate) ].
    reflexivity.
  - rewrite shellWords_apply_injected by assumption.
    repeat first [ rewrite splitOn_sep
                 | rewrite splitOn_word by (assumption || discriminate) ].
    reflexivity.
Qed.

Lemma commands_and_list_injection_witness :
  splitOn "&&" (shellWords (commitCmd "/tmp/git-edit-1" ("a.txt" +:+ " && " +:+ "reboot")))
  = [["cd"; "/tmp/git-edit-1"]; ["git"; "add"; "a.txt"]; ["reboot"];
     ["git"; "commit"; "-m"; "Original file"]]
  /\ splitOn "&&"
       (shellWords (applyCmd ("/tmp/x" +:+ " && " +:+ "reboot") "/tmp/git-edit-1/changes.patch"))
     = [["cd"; "/tmp/x"]; ["reboot"]; ["git"; "apply"; "/tmp/git-edit-1/changes.patch"]].
Proof.
  refine (commands_and_list_injection "/tmp/git-edit-1" "a.txt" "/tmp/x" "reboot"
            "/tmp/git-edit-1/changes.patch" _ _ _ _ _); reflexivity.
Defined.

(* ===================================================================== *)
(** * A run of the diff/patch engine that edits another file              *)
(* ===================================================================== *)







Section Steps.
Context {sys : Sys}.



End Steps.



(** ** X14 *)



(* ===================================================================== *)
(** * The command lines that reach the shell                              *)
(* ===================================================================== *)


Section CommandsPassed.
Context {sys : Sys}.



End CommandsPassed.



(** ** C9 *)



(* ===================================================================== *)
(** * The edits that the diff/patch engine does not make                  *)
(* ===================================================================== *)









(** ** C1 *)


(** ** C3 *)

(** C3, at the failing input.  The files [/tmp/my dir/a.txt] and
    [/tmp/my/a.txt] hold the text of scenario 1, in which the search
    string occurs exactly once.  Started in the same state of the
    reference machine on [/tmp/my dir/a.txt], both engines return
    without error; the in-memory engine leaves the new content in the
    file, the diff/patch engine leaves the file as it was: the resulting
    contents differ. *)
Theorem engines_disagree_after_success :
  RefContract.content (env (Ref.start (twinMachine scenario1))) blankFile = Some scenario1
  /\ occurrences scenario1 (search block1) = 1%nat
  /\ (@gitBasedReplace Ref.machine blankFile block1 (Ref.start (twinMachine scenario1))).1
     = Returned tt
  /\ (@simpleInMemoryReplace Ref.machine blankFile block1 (Ref.start (twinMachine scenario1))).1
     = Returned tt
  /\ RefContract.content
       (env (@gitBasedReplace Ref.machine blankFile block1
               (Ref.start (twinMachine scenario1))).2) blankFile
     = Some scenario1
  /\ RefContract.content
       (env (@simpleInMemoryReplace Ref.machine blankFile block1
               (Ref.start (twinMachine scenario1))).2) blankFile
     = Some "This is a test file with new content that will be replaced."
  /\ RefContract.content
       (env (@gitBasedReplace Ref.machine blankFile block1
               (Ref.start (twinMachine scenario1))).2) blankFile
     <> RefContract.content
          (env (@simpleInMemoryReplace Ref.machine blankFile block1
                  (Ref.start (twinMachine scenario1))).2) blankFile.
Proof. vm_compute. repeat split; discriminate. Qed.
